(** * ts-pattern: the expression builder and the pattern combinators

    A shallow embedding of [src/match.ts] (the [match] expression builder)
    and of the pattern combinators ([optional], [array], [intersection],
    [union], [not], [when], [select]), with the properties the
    specification states about them.

    JavaScript values are a tree type, user functions are state
    transformers over an abstract world that may return or throw, and the
    mutable objects of the source ([selections], [selected]) are passed
    explicitly: the local ones as a threaded state, the one a [with]
    case closes over as a cell of a heap.  An object created by [{}]
    inherits from [Object.prototype]: assigning to [__proto__] goes to
    the setter it inherits, and reading a property it does not own finds
    the members of its prototype.  The helpers [matchPattern],
    [getSelectionKeys] and [flatMap], which the sources import but do not
    contain, follow the specification; [JSON.stringify], the conversion
    of a value to a string and the anonymous selection key are
    parameters. *)

From Stdlib Require Import List String Ascii ZArith Bool Arith Lia.
Import ListNotations.
Local Open Scope string_scope.
Local Open Scope list_scope.

Set Implicit Arguments.
Set Warnings "-register-all".

(** ** JavaScript values *)

(** The data values a subject can be.  Numbers are the integers; an
    object is the list of its own enumerable properties in the order
    [Object.keys] lists them.  The prototype of a [VObj] is
    [Object.prototype]; a [VObjProto] is an object with another
    prototype, [null] or an object. *)
Inductive Value : Type :=
| VUndefined
| VNull
| VBool (b : bool)
| VNum (n : Z)
| VStr (s : string)
| VArr (elems : list Value)
| VObj (props : list (string * Value))
| VObjProto (proto : Value) (props : list (string * Value)).

(** A plain object used as a map from property names to values: the own
    properties of an object. *)
Definition record : Type := list (string * Value).

(** ToBoolean. *)
Definition truthy (v : Value) : bool :=
  match v with
  | VUndefined | VNull => false
  | VBool b => b
  | VNum n => negb (n =? 0)%Z
  | VStr s => negb (s =? "")
  | VArr _ | VObj _ | VObjProto _ _ => true
  end.

(** [value === undefined]. *)
Definition is_undefined (v : Value) : bool :=
  match v with VUndefined => true | _ => false end.

(** Structural equality of two data values. *)
Fixpoint value_eqb (a b : Value) {struct a} : bool :=
  match a, b with
  | VUndefined, VUndefined => true
  | VNull, VNull => true
  | VBool x, VBool y => Bool.eqb x y
  | VNum x, VNum y => (x =? y)%Z
  | VStr x, VStr y => (x =? y)
  | VArr xs, VArr ys =>
      (fix go (xs ys : list Value) {struct xs} : bool :=
         match xs, ys with
         | [], [] => true
         | x :: xs', y :: ys' => value_eqb x y && go xs' ys'
         | _, _ => false
         end) xs ys
  | VObj xs, VObj ys =>
      (fix go (xs ys : list (string * Value)) {struct xs} : bool :=
         match xs, ys with
         | [], [] => true
         | (k, x) :: xs', (k', y) :: ys' =>
             (k =? k') && value_eqb x y && go xs' ys'
         | _, _ => false
         end) xs ys
  | VObjProto p xs, VObjProto q ys =>
      value_eqb p q &&
      (fix go (xs ys : list (string * Value)) {struct xs} : bool :=
         match xs, ys with
         | [], [] => true
         | (k, x) :: xs', (k', y) :: ys' =>
             (k =? k') && value_eqb x y && go xs' ys'
         | _, _ => false
         end) xs ys
  | _, _ => false
  end.

(** ** Own properties *)

(** [o[key]] on the own properties: the value of the property,
    [undefined] when absent. *)
Fixpoint obj_get (o : record) (key : string) : Value :=
  match o with
  | [] => VUndefined
  | (k, v) :: o' => if k =? key then v else obj_get o' key
  end.

(** [o.hasOwnProperty(key)]. *)
Fixpoint obj_has (o : record) (key : string) : bool :=
  match o with
  | [] => false
  | (k, _) :: o' => (k =? key) || obj_has o' key
  end.

(** An array index as a property name: [0], or the digits without a
    leading zero of a number below [2^32 - 1]. *)
Definition digit (c : ascii) : option N :=
  let n := N_of_ascii c in
  if (48 <=? n)%N && (n <=? 57)%N then Some (n - 48)%N else None.

Fixpoint digits (s : string) (acc : N) : option N :=
  match s with
  | EmptyString => Some acc
  | String c s' =>
      match digit c with
      | Some d => digits s' (10 * acc + d)%N
      | None => None
      end
  end.

Definition array_index (key : string) : option N :=
  match key with
  | EmptyString => None
  | String c s' =>
      if (c =? "0")%char
      then match s' with EmptyString => Some 0%N | _ => None end
      else match digits key 0 with
           | Some i => if (i <=? 4294967294)%N then Some i else None
           | None => None
           end
  end.

(** Writing an own property.  An existing property keeps its place; a
    new one goes last, or when it is an array index after the array
    indices below it, which precede the other properties. *)
Fixpoint obj_update (o : record) (key : string) (v : Value) : record :=
  match o with
  | [] => []
  | (k, x) :: o' =>
      if k =? key then (k, v) :: o' else (k, x) :: obj_update o' key v
  end.

Fixpoint obj_add_index (o : record) (i : N) (key : string) (v : Value)
  : record :=
  match o with
  | [] => [(key, v)]
  | (k, x) :: o' =>
      match array_index k with
      | Some j =>
          if (j <? i)%N then (k, x) :: obj_add_index o' i key v
          else (key, v) :: o
      | None => (key, v) :: o
      end
  end.

Definition obj_set (o : record) (key : string) (v : Value) : record :=
  if obj_has o key then obj_update o key v
  else match array_index key with
       | Some i => obj_add_index o i key v
       | None => o ++ [(key, v)]
       end.

(** [Object.keys(o)]. *)
Definition Object_keys (o : record) : list string := map fst o.

(** ** Objects and their prototype *)

(** The names of the members of [Object.prototype]: its methods and the
    accessor [__proto__]. *)
Definition Object_prototype_names : list string :=
  [ "constructor"; "__defineGetter__"; "__defineSetter__";
    "hasOwnProperty"; "__lookupGetter__"; "__lookupSetter__";
    "isPrototypeOf"; "propertyIsEnumerable"; "toString"; "valueOf";
    "__proto__"; "toLocaleString" ].

(** [key] names a member every object created by [{}] inherits. *)
Definition inherited (key : string) : bool :=
  existsb (String.eqb key) Object_prototype_names.

(** An object created by [{}] whose prototype may have been replaced:
    its own properties and its prototype, [None] for
    [Object.prototype], else the data value, [null] or an object, that
    took its place. *)
Record object : Type := {
  own : record;
  proto : option Value
}.

(** [{}]. *)
Definition empty_object : object := {| own := []; proto := None |}.

(** The object as a data value. *)
Definition to_value (o : object) : Value :=
  match proto o with
  | None => VObj (own o)
  | Some p => VObjProto p (own o)
  end.

(** [typeof v === 'object']: an object or [null], what the setter of
    [__proto__] takes as a prototype. *)
Definition is_object_or_null (v : Value) : bool :=
  match v with
  | VNull | VArr _ | VObj _ | VObjProto _ _ => true
  | _ => false
  end.

(** Looking [__proto__] up from the data value [v] along its prototype
    chain reaches the accessor of [Object.prototype]: no object on the
    way owns a property of that name, and the chain does not end in
    [null] before. *)
Fixpoint reaches_proto_accessor (v : Value) : bool :=
  match v with
  | VArr _ => true
  | VObj props => negb (obj_has props "__proto__")
  | VObjProto p props =>
      negb (obj_has props "__proto__") && reaches_proto_accessor p
  | _ => false
  end.

(** [o[key] = v].  The assignment writes an own property, except that of
    [__proto__] when the object does not own it and inherits the
    accessor: its setter replaces the prototype by an object or [null]
    and ignores any other value. *)
Definition set_property (o : object) (key : string) (v : Value) : object :=
  if (key =? "__proto__") && negb (obj_has (own o) key)
     && match proto o with
        | None => true
        | Some p => reaches_proto_accessor p
        end
  then
    if is_object_or_null v then {| own := own o; proto := Some v |} else o
  else {| own := obj_set (own o) key v; proto := proto o |}.

(** The data property [key] found on the data value [v] or up its
    prototype chain: an own property of an object, an element or the
    [length] of an array.  The built-in methods are not data: [key] is
    not the name of one. *)
Fixpoint lookup (v : Value) (key : string) : option Value :=
  match v with
  | VArr elems =>
      if key =? "length" then Some (VNum (Z.of_nat (List.length elems)))
      else match array_index key with
           | Some i => nth_error elems (N.to_nat i)
           | None => None
           end
  | VObj props =>
      if obj_has props key then Some (obj_get props key) else None
  | VObjProto p props =>
      if obj_has props key then Some (obj_get props key) else lookup p key
  | _ => None
  end.

(** [key in o] and [o[key]] on an object created by [{}], for a [key]
    that names no built-in member. *)
Definition has_property (o : object) (key : string) : bool :=
  obj_has (own o) key
  || match proto o with
     | Some p => match lookup p key with Some _ => true | None => false end
     | None => false
     end.

Definition get_property (o : object) (key : string) : Value :=
  if obj_has (own o) key then obj_get (own o) key
  else match proto o with
       | Some p =>
           match lookup p key with Some x => x | None => VUndefined end
       | None => VUndefined
       end.

(** [xs.concat([v])] on the value [xs]; only arrays reach it. *)
Definition concat1 (xs v : Value) : Value :=
  match xs with
  | VArr l => VArr (l ++ [v])
  | _ => xs
  end.

(** ** Computations that may throw *)

(** What user code and the engine can throw below the resolver. *)
Inductive exn : Type :=
| Thrown (v : Value)      (* [throw v] in a user function *)
| TypeError.              (* calling something that is not a function *)

(** What a resolver can throw: the error of [run], or what came from
    below unchanged. *)
Inductive error : Type :=
| UnhandledMatchError (message : string)
| Uncaught (e : exn).

Inductive result (E A : Type) : Type :=
| Ok (a : A)
| Throw (e : E).
Arguments Ok {E A} a.
Arguments Throw {E A} e.

(** A computation over a state [St]: the state survives a throw, as the
    mutations made before a JavaScript exception do. *)
Definition M (E St A : Type) : Type := St -> result E A * St.

Definition ret {E St A} (a : A) : M E St A := fun s => (Ok a, s).

Definition throw {E St A} (e : E) : M E St A := fun s => (Throw e, s).

Definition bind {E St A B} (m : M E St A) (k : A -> M E St B) : M E St B :=
  fun s =>
    match m s with
    | (Ok a, s') => k a s'
    | (Throw e, s') => (Throw e, s')
    end.

Declare Scope js_scope.
Delimit Scope js_scope with js.
Notation "x <- m ;; k" := (bind m (fun x => k))
  (at level 61, m at next level, right associativity) : js_scope.
Notation "m ;;; k" := (bind m (fun _ => k))
  (at level 61, right associativity) : js_scope.
Local Open Scope js_scope.

(** Reading and updating the state. *)
Definition gets {E St A} (f : St -> A) : M E St A := fun s => (Ok (f s), s).

Definition modify {E St} (f : St -> St) : M E St unit := fun s => (Ok tt, f s).

(** Running a computation on the second component of a pair state. *)
Definition on_snd {E St T A} (m : M E T A) : M E (St * T) A :=
  fun st =>
    match m (snd st) with
    | (r, t') => (r, (fst st, t'))
    end.

(** Running a computation on the first component of a pair state. *)
Definition on_fst {E St T A} (m : M E St A) : M E (St * T) A :=
  fun st =>
    match m (fst st) with
    | (r, s') => (r, (s', snd st))
    end.

(** Running a computation against a fresh local object [o0], returning
    the object as it is at the end. *)
Definition scoped {E St T A} (o0 : St) (m : M E (St * T) A)
  : M E T (A * St) :=
  fun t =>
    match m (o0, t) with
    | (Ok a, (o, t')) => (Ok (a, o), t')
    | (Throw e, (_, t')) => (Throw e, t')
    end.

(** Letting the errors from below through a resolver. *)
Definition uncaught {St A} (m : M exn St A) : M error St A :=
  fun s =>
    match m s with
    | (Ok a, s') => (Ok a, s')
    | (Throw e, s') => (Throw (Uncaught e), s')
    end.

(** ** Array methods taking a callback *)

(** [xs.forEach(f)]. *)
Fixpoint forEach {E St A} (xs : list A) (f : A -> M E St unit)
  {struct xs} : M E St unit :=
  match xs with
  | [] => ret tt
  | x :: xs' => f x ;;; forEach xs' f
  end.

Section ArrayMethods.
Context {E St A : Type}.
Variable callback : A -> nat -> M E St Value.

(** [xs.every(callback)], from index [i] on. *)
Fixpoint every_from (i : nat) (xs : list A) {struct xs} : M E St bool :=
  match xs with
  | [] => ret true
  | x :: xs' =>
      r <- callback x i ;;
      if truthy r then every_from (S i) xs' else ret false
  end.

(** [xs.some(callback)], from index [i] on. *)
Fixpoint some_from (i : nat) (xs : list A) {struct xs} : M E St bool :=
  match xs with
  | [] => ret false
  | x :: xs' =>
      r <- callback x i ;;
      if truthy r then ret true else some_from (S i) xs'
  end.

(** [xs.find(callback)], from index [i] on. *)
Fixpoint find_from (i : nat) (xs : list A) {struct xs}
  : M E St (option A) :=
  match xs with
  | [] => ret None
  | x :: xs' =>
      r <- callback x i ;;
      if truthy r then ret (Some x) else find_from (S i) xs'
  end.
End ArrayMethods.

Definition every {E St A} (xs : list A) (callback : A -> nat -> M E St Value)
  : M E St bool := every_from callback 0 xs.

Definition some {E St A} (xs : list A) (callback : A -> nat -> M E St Value)
  : M E St bool := some_from callback 0 xs.

Definition find {E St A} (xs : list A) (callback : A -> nat -> M E St Value)
  : M E St (option A) := find_from callback 0 xs.

(** ** Selectors *)

(** A selector callback [(key, value) => void] of the source mutates an
    object it closes over, whose state is an [St]; it may throw. *)
Definition selector (St : Type) : Type := string -> Value -> M exn St unit.

(** [(key, value) => { selections[key] = value }]. *)
Definition assign : selector object :=
  fun key v => modify (fun o => set_property o key v).

(** [() => {}]. *)
Definition ignore {St : Type} : selector St := fun _ _ => ret tt.

(** [keys.forEach((key) => selector(key, v))]. *)
Definition forEach_key {St : Type} (keys : list string) (sel : selector St)
  (v : Value) : M exn St unit :=
  forEach keys (fun key => sel key v).

(** [Object.keys(selections).forEach((key) => select(key, selections[key]))]. *)
Definition forward {St : Type} (selections : record) (sel : selector St)
  : M exn St unit :=
  forEach (Object_keys selections)
    (fun key => sel key (obj_get selections key)).

(** Replaying a list of emitted captures through a selector. *)
Definition replay {St : Type} (sel : selector St)
  (emitted : list (string * Value)) : M exn St unit :=
  forEach emitted (fun kv => sel (fst kv) (snd kv)).

(** ** User functions, matchers and patterns *)

Section Types.
(** The part of the program state user functions can read and write. *)
Variable W : Type.

(** A JavaScript function: an identity, and what a call does to the
    world.  It returns a value or throws. *)
Record func : Type := {
  fid : nat;
  fbody : list Value -> W -> result exn Value * W
}.

(** The world, with the trace of the calls made to user functions. *)
Record env : Type := {
  world : W;
  calls : list (nat * list Value)
}.

(** [f(...args)]. *)
Definition call (f : func) (args : list Value) : M exn env Value :=
  fun e =>
    match fbody f args (world e) with
    | (r, w') =>
        (r, {| world := w'; calls := calls e ++ [(fid f, args)] |})
    end.

(** What a matcher's [match] returns: [{ matched, selections? }], the
    object [selections] by its own properties. *)
Record matchResult : Type := {
  matched : Value;
  selections : option record
}.

(** The object [pattern[symbols.matcher]()] returns. *)
Record matcher : Type := {
  m_match : Value -> M exn env matchResult;
  m_getSelectionKeys : option (list string);
  m_matcherType : option string
}.

(** A pattern is any JavaScript value handed to [with]: a literal, a
    function, an object or array of patterns, or an object with the
    matcher capability. *)
Inductive Pattern : Type :=
| PLit (v : Value)
| PFun (f : func)
| PObj (fields : list (string * Pattern))
| PTuple (elems : list Pattern)
| PMatcher (m : matcher).

(** [typeof x === 'function']. *)
Definition is_function (x : Pattern) : bool :=
  match x with PFun _ => true | _ => false end.

(** [x(...args)] for an arbitrary [x]. *)
Definition call_value (x : Pattern) (args : list Value)
  : M exn env Value :=
  match x with
  | PFun f => call f args
  | _ => throw TypeError
  end.
End Types.

Arguments PLit {W} v.
Arguments PFun {W} f.
Arguments PObj {W} fields.
Arguments PTuple {W} elems.
Arguments PMatcher {W} m.

(** ** Helpers of the matcher ([internals/helpers]) *)

Section Helpers.
Variable W : Type.

(** Modelled from the spec: [flatMap] of internals/helpers, absent from
    the sources; the keys of all listed patterns, in their order. *)
Definition flatMap {A B : Type} (xs : list A) (f : A -> list B) : list B :=
  fold_left (fun acc p => acc ++ f p) xs [].

(** Modelled from the spec: [getSelectionKeys] of internals/helpers,
    absent from the sources.  The selection keys of a pattern are a
    static property of its structure: those the matcher declares, and
    for a shape those of its sub-patterns. *)
Fixpoint getSelectionKeys (pattern : Pattern W) : list string :=
  match pattern with
  | PMatcher m =>
      match m_getSelectionKeys m with
      | Some keys => keys
      | None => []
      end
  | PTuple elems => flatMap elems getSelectionKeys
  | PObj fields => flatMap fields (fun kv => getSelectionKeys (snd kv))
  | PLit _ | PFun _ => []
  end.

(** A keyed record: an object that is not an array. *)
Definition keyed (v : Value) : bool :=
  match v with
  | VObj _ | VObjProto _ _ => true
  | _ => false
  end.

(** [value[key]], [undefined] when absent. *)
Definition value_get (v : Value) (key : string) : Value :=
  match lookup v key with
  | Some x => x
  | None => VUndefined
  end.

(** Modelled from the spec: [matchPattern] of internals/helpers, absent
    from the sources (spec 4.1).  [select] acts on the object the
    caller's selector closes over, the first component of the state.
    - Matcher: delegate to the node's own [match]; if it matched,
      forward every entry of its selections through [select]; return
      its [matched] flag.
    - ObjectShape: fail unless the value is a keyed record; every
      declared field must match [value[key]], nested captures going
      through [select], stopping at the first field that fails.
    - ArrayShapeLiteral: fail unless the value is a sequence of the
      same length; every position must match.
    - Literal: structural equality.
    - Anything else (a function): reference equality, which no data
      value satisfies. *)
Fixpoint matchPattern {St : Type} (pattern : Pattern W) (value : Value)
  (select : selector St) {struct pattern} : M exn (St * env W) Value :=
  match pattern with
  | PMatcher m =>
      r <- on_snd (m_match m value) ;;
      (if truthy (matched r) then
         match selections r with
         | Some sels => on_fst (forward sels select)
         | None => ret tt
         end
       else ret tt) ;;;
      ret (matched r)
  | PObj fields =>
      if keyed value then
        b <- every fields (fun kv _ =>
               matchPattern (snd kv) (value_get value (fst kv)) select) ;;
        ret (VBool b)
      else ret (VBool false)
  | PTuple elems =>
      match value with
      | VArr vs =>
          if (List.length elems =? List.length vs)%nat then
            b <- every elems (fun subPattern i =>
                   matchPattern subPattern (nth i vs VUndefined) select) ;;
            ret (VBool b)
          else ret (VBool false)
      | _ => ret (VBool false)
      end
  | PLit v => ret (VBool (value_eqb value v))
  | PFun _ => ret (VBool false)
  end.
End Helpers.

Arguments getSelectionKeys {W} pattern.
Arguments matchPattern {W St} pattern value select.

(** ** The pattern combinators *)

(** The selector of [array]:
    [selections[key] = (selections[key] || []).concat([value])].
    The object [selections] of [array] is created by [{}] and this
    selector alone writes to it, never to its prototype: the state is
    its own properties.  For a key the object does not own,
    [selections[key]] is the member of [Object.prototype] of that name
    when there is one, a function or, for [__proto__], the prototype
    itself, and [concat] is not a function on it. *)
Definition array_selector : selector record :=
  fun key v selections =>
    if negb (obj_has selections key) && inherited key
    then (Throw TypeError, selections)
    else
      let current := obj_get selections key in
      (Ok tt,
       obj_set selections key
         (concat1 (if truthy current then current else VArr []) v)).

Module P.
Section Combinators.
Variable W : Type.

(** The reserved key of an unnamed [select()] ([symbols.anonymousSelectKey]). *)
Variable anonymousSelectKey : string.

(** [P.optional(subpattern)]. *)
Definition optional (pattern : Pattern W) : Pattern W :=
  PMatcher {|
    m_match := fun value =>
      if is_undefined value then
        r <- scoped empty_object
               (on_fst (forEach_key (getSelectionKeys pattern) assign
                          VUndefined)) ;;
        ret {| matched := VBool true; selections := Some (own (snd r)) |}
      else
        r <- scoped empty_object (matchPattern pattern value assign) ;;
        ret {| matched := fst r; selections := Some (own (snd r)) |};
    m_getSelectionKeys := Some (getSelectionKeys pattern);
    m_matcherType := Some "optional"
  |}.

(** [P.array(subpattern)]. *)
Definition array (pattern : Pattern W) : Pattern W :=
  PMatcher {|
    m_match := fun value =>
      match value with
      | VArr elems =>
          r <- scoped ([] : record)
                 (every elems (fun v _ =>
                    matchPattern pattern v array_selector)) ;;
          ret {| matched := VBool (fst r); selections := Some (snd r) |}
      | _ => ret {| matched := VBool false; selections := None |}
      end;
    m_getSelectionKeys := Some (getSelectionKeys pattern);
    m_matcherType := None
  |}.

(** [P.intersection(...patterns)]. *)
Definition intersection (patterns : list (Pattern W)) : Pattern W :=
  PMatcher {|
    m_match := fun value =>
      r <- scoped empty_object
             (every patterns (fun p _ => matchPattern p value assign)) ;;
      ret {| matched := VBool (fst r); selections := Some (own (snd r)) |};
    m_getSelectionKeys :=
      Some (fold_left (fun acc p => acc ++ getSelectionKeys p) patterns []);
    m_matcherType := Some "and"
  |}.

(** [P.union(...patterns)]. *)
Definition union (patterns : list (Pattern W)) : Pattern W :=
  PMatcher {|
    m_match := fun value =>
      r <- scoped empty_object
             (on_fst (forEach_key (flatMap patterns getSelectionKeys) assign
                        VUndefined) ;;;
              some patterns (fun p _ => matchPattern p value assign)) ;;
      ret {| matched := VBool (fst r); selections := Some (own (snd r)) |};
    m_getSelectionKeys :=
      Some (fold_left (fun acc p => acc ++ getSelectionKeys p) patterns []);
    m_matcherType := Some "or"
  |}.

(** [P.not(pattern)]. *)
Definition not (pattern : Pattern W) : Pattern W :=
  PMatcher {|
    m_match := fun value =>
      r <- scoped tt (matchPattern pattern value ignore) ;;
      ret {| matched := VBool (negb (truthy (fst r))); selections := None |};
    m_getSelectionKeys := Some [];
    m_matcherType := Some "not"
  |}.

(** [P.when(predicate)]. *)
Definition when (predicate : func W) : Pattern W :=
  PMatcher {|
    m_match := fun value =>
      r <- call predicate [value] ;;
      ret {| matched := r; selections := None |};
    m_getSelectionKeys := None;
    m_matcherType := None
  |}.

(** [P.select()] and [P.select(key)]. *)
Definition select (key : option string) : Pattern W :=
  let k := match key with Some k => k | None => anonymousSelectKey end in
  PMatcher {|
    m_match := fun value =>
      ret {| matched := VBool true; selections := Some [(k, value)] |};
    m_getSelectionKeys := Some [k];
    m_matcherType := None
  |}.
End Combinators.
End P.

Arguments P.optional {W} pattern.
Arguments P.array {W} pattern.
Arguments P.intersection {W} patterns.
Arguments P.union {W} patterns.
Arguments P.not {W} pattern.
Arguments P.when {W} predicate.
Arguments P.select {W} anonymousSelectKey key.

(** ** The expression builder ([src/match.ts]) *)

(** [xs[i] = x] on a list that has the index. *)
Fixpoint set_nth {A : Type} (i : nat) (x : A) (xs : list A) : list A :=
  match xs, i with
  | [], _ => []
  | _ :: xs', O => x :: xs'
  | y :: xs', S i' => y :: set_nth i' x xs'
  end.

Section Match.
Variable W : Type.
Variable anonymousSelectKey : string.

(** [JSON.stringify], [None] when it throws; it may return
    [undefined]. *)
Variable JSON_stringify : Value -> option Value.

(** The string a template literal makes of a value. *)
Variable ToString : Value -> string.

(** The state of a program using the builder: the user's part, and the
    [selected] objects the [with] cases close over, by their order of
    creation. *)
Record state : Type := {
  user : env W;
  heap : list object
}.

(** Running user-level code in the whole state. *)
Definition in_user {A} (m : M exn (env W) A) : M exn state A :=
  fun s =>
    match m (user s) with
    | (r, e') => (r, {| user := e'; heap := heap s |})
    end.

(** [let selected = {}]: a new object, named by its index. *)
Definition alloc (o : object) : M exn state nat :=
  fun s =>
    (Ok (List.length (heap s)),
     {| user := user s; heap := heap s ++ [o] |}).

(** Running a matching computation whose selector writes to the
    object at [loc]. *)
Definition in_cell {A} (loc : nat) (m : M exn (object * env W) A)
  : M exn state A :=
  fun s =>
    match m (nth loc (heap s) empty_object, user s) with
    | (r, (o, e')) => (r, {| user := e'; heap := set_nth loc o (heap s) |})
    end.

(** An entry of [cases]. *)
Record case : Type := {
  test : Value -> M exn state Value;
  select : Value -> M exn state Value;
  handler : Pattern W
}.

(** What [builder(value, cases)] closes over. *)
Record Builder : Type := builder {
  value : Value;
  cases : list case
}.

(** [match(value)]. *)
Definition match_ (value : Value) : Builder := builder value [].

(** The closure [run] of [builder]. *)
Definition run (b : Builder) : M error state Value :=
  entry <- uncaught (find (cases b) (fun c _ => test c (value b))) ;;
  match entry with
  | None =>
      let displayedValue :=
        match JSON_stringify (value b) with
        | Some d => d
        | None => value b
        end in
      throw (UnhandledMatchError
               ("Pattern matching error: no pattern matches value "
                  ++ ToString displayedValue))
  | Some entry =>
      uncaught
        (x <- select entry (value b) ;;
         in_user (call_value (handler entry) [x; value b]))
  end.

(** [doesMatch] of a [with] case whose [selected] is at [loc]. *)
Definition doesMatch (loc : nat) (patterns predicates : list (Pattern W))
  (value : Value) : M exn state Value :=
  in_cell loc
    (a <- some patterns (fun pattern _ =>
            matchPattern pattern value assign) ;;
     b <- (if a : bool then
             every predicates (fun predicate _ =>
               on_snd (call_value predicate [value]))
           else ret false) ;;
     ret (VBool b)).

(** The body of [select] of a [with] case, on the object [selected]. *)
Definition first_argument (selected : object) (value : Value) : Value :=
  if negb (List.length (Object_keys (own selected)) =? 0)%nat then
    if has_property selected anonymousSelectKey
    then get_property selected anonymousSelectKey
    else to_value selected
  else value.

(** [select] of a [with] case whose [selected] is at [loc]. *)
Definition with_select (loc : nat) (value : Value) : M exn state Value :=
  gets (fun s => first_argument (nth loc (heap s) empty_object) value).

(** [with(...args)]. *)
Definition with_ (b : Builder) (args : list (Pattern W))
  : M exn state Builder :=
  let undefined := PLit VUndefined in
  let handler := nth (List.length args - 1) args undefined in
  let '(patterns, predicates) :=
    if (List.length args =? 3)%nat && is_function (nth 1 args undefined)
    then ([nth 0 args undefined], [nth 1 args undefined])
    else (firstn (List.length args - 1) args, []) in
  selected <- alloc empty_object ;;
  ret (builder (value b)
         (cases b ++
            [ {| test := doesMatch selected patterns predicates;
                 handler := handler;
                 select := with_select selected |} ])).

(** [when(predicate, handler)]. *)
Definition when (b : Builder) (predicate handler : func W)
  : M exn state Builder :=
  ret (builder (value b)
         (cases b ++
            [ {| test := fun value => in_user (call predicate [value]);
                 handler := PFun handler;
                 select := fun value => ret value |} ])).

(** [otherwise(handler)]. *)
Definition otherwise (b : Builder) (handler : func W)
  : M error state Value :=
  run (builder (value b)
         (cases b ++
            [ {| test := fun _ => ret (VBool true);
                 handler := PFun handler;
                 select := fun value => ret value |} ])).

(** [exhaustive()]. *)
Definition exhaustive (b : Builder) : M error state Value := run b.
End Match.

Arguments match_ {W} value.

(** ** Notions used to state the properties *)

(** The selector that only records what is emitted, in order. *)
Definition log : selector (list (string * Value)) :=
  fun key v => modify (fun emitted => emitted ++ [(key, v)]).

(** The object after the captures [es] were assigned to it in order. *)
Definition store (es : list (string * Value)) (o : object) : object :=
  fold_left (fun acc kv => set_property acc (fst kv) (snd kv)) es o.

(** The own properties after the captures [es] were written in order as
    own properties. *)
Definition written (es : list (string * Value)) (o : record) : record :=
  fold_left (fun acc kv => obj_set acc (fst kv) (snd kv)) es o.

(** The own properties after the selector of [array] has taken the
    captures [es] in order, none of them stopping it. *)
Definition collected (es : list (string * Value)) (o : record) : record :=
  fold_left
    (fun acc kv =>
       let current := obj_get acc (fst kv) in
       obj_set acc (fst kv)
         (concat1 (if truthy current then current else VArr []) (snd kv)))
    es o.

(** The captures that seed keys with [undefined]. *)
Definition seeds (keys : list string) : list (string * Value) :=
  map (fun key => (key, VUndefined)) keys.

(** No key of the list names a member of [Object.prototype]. *)
Definition no_inherited (keys : list string) : Prop :=
  forall key, In key keys -> inherited key = false.

(** The value last emitted under [key], if any. *)
Definition last_emitted (es : list (string * Value)) (key : string)
  : option Value :=
  fold_left (fun acc kv => if fst kv =? key then Some (snd kv) else acc)
    es None.

(** The values emitted under [key], in order. *)
Definition emitted_for (es : list (string * Value)) (key : string)
  : list Value :=
  map snd (filter (fun kv => fst kv =? key) es).

Section Outcomes.
Variable W : Type.

(** Matching [pattern] against [v] from the environment [e]: the
    outcome, the captures emitted through the selector in order, and
    the environment left. *)
Definition emit (pattern : Pattern W) (v : Value) (e : env W)
  : result exn Value * (list (string * Value) * env W) :=
  matchPattern pattern v log ([], e).

(** The listed patterns were tested in order from [e] and each one
    failed; [es] is what they emitted before failing and [e'] the
    environment left. *)
Inductive tried (v : Value)
  : list (Pattern W) -> env W -> list (string * Value) -> env W -> Prop :=
| tried_nil e : tried v [] e [] e
| tried_cons p ps e r es e1 es' e2 :
    emit p v e = (Ok r, (es, e1)) ->
    truthy r = false ->
    tried v ps e1 es' e2 ->
    tried v (p :: ps) e (es ++ es') e2.

(** The tests of the cases were run in order from [s] and each one
    returned a falsy value, leaving [s']. *)
Inductive rejected (v : Value)
  : list (case W) -> state W -> state W -> Prop :=
| rejected_nil s : rejected v [] s s
| rejected_cons c cs s r s1 s2 :
    test c v s = (Ok r, s1) ->
    truthy r = false ->
    rejected v cs s1 s2 ->
    rejected v (c :: cs) s s2.

(** [pattern[symbols.matcher]().match(value)]: a type error when the
    pattern has no matcher capability. *)
Definition matcher_match (pattern : Pattern W) (v : Value)
  : M exn (env W) (matchResult) :=
  match pattern with
  | PMatcher m => m_match m v
  | _ => throw TypeError
  end.

(** An object or tuple shape, the patterns that hand the caller's
    selector to their sub-patterns. *)
Definition is_shape (p : Pattern W) : bool :=
  match p with
  | PObj _ | PTuple _ => true
  | _ => false
  end.

(** The argument form [with(pattern, guard, handler)]. *)
Definition guard_form (args : list (Pattern W)) : bool :=
  (List.length args =? 3)%nat && is_function (nth 1 args (PLit VUndefined)).

(** The patterns and the guards [with(...args)] takes from [args]. *)
Definition with_patterns (args : list (Pattern W)) : list (Pattern W) :=
  if guard_form args then [nth 0 args (PLit VUndefined)]
  else firstn (List.length args - 1) args.

Definition with_predicates (args : list (Pattern W)) : list (Pattern W) :=
  if guard_form args then [nth 1 args (PLit VUndefined)] else [].

(** The first argument of the handler as the specification words it:
    the value under the anonymous key if that key is the only capture,
    else the record of captures if there is any, else the value. *)
Definition spec_first_argument (anonymousSelectKey : string)
  (selected : record) (value : Value) : Value :=
  match Object_keys selected with
  | [] => value
  | [key] =>
      if key =? anonymousSelectKey
      then obj_get selected anonymousSelectKey
      else VObj selected
  | _ => VObj selected
  end.

(** A user function that returns a boolean and never throws. *)
Definition boolean_function (f : func W) : Prop :=
  forall args w, exists b w', fbody f args w = (Ok (VBool b), w').

(** The scan [cases.find(({ test }) => test(value))]. *)
Definition scan (v : Value) (cs : list (case W))
  : M exn (state W) (option (case W)) :=
  find cs (fun c _ => test c v).

(** A matching computation is replayable when running it with a
    selector amounts to running it with [log] and replaying what was
    emitted: if the selector takes all of it, the outcome is the same,
    be it a result or a throw; if the selector throws on the way, the
    computation throws what the selector threw. *)
Definition replayable {A : Type}
  (m : forall St : Type, selector St -> M exn (St * env W) A) : Prop :=
  forall (St : Type) (sel : selector St) o e r es e',
    m _ log ([], e) = (r, (es, e')) ->
    match replay sel es o with
    | (Ok _, o') => m St sel (o, e) = (r, (o', e'))
    | (Throw x, _) => exists st', m St sel (o, e) = (Throw x, st')
    end.

(** Every element of the array matches the sub-pattern, in order. *)
Inductive all_matched (sub : Pattern W)
  : list Value -> env W -> list (string * Value) -> env W -> Prop :=
| all_matched_nil e : all_matched sub [] e [] e
| all_matched_cons v vs e r es e1 es' e2 :
    emit sub v e = (Ok r, (es, e1)) ->
    truthy r = true ->
    all_matched sub vs e1 es' e2 ->
    all_matched sub (v :: vs) e (es ++ es') e2.

End Outcomes.

Section Built.
Variable W : Type.
Variable anonymousSelectKey : string.

(** The case [with(...args)] appends, its [selected] object being the
    next one of the heap. *)
Definition with_case (loc : nat) (args : list (Pattern W)) : case W :=
  {| test := doesMatch loc (with_patterns args) (with_predicates args);
     handler := nth (List.length args - 1) args (PLit VUndefined);
     select := with_select anonymousSelectKey loc |}.

(** The patterns made of literals, functions, shapes and the
    combinators of the library, whose [when] predicates return a
    boolean without throwing and where no selection key of a pattern
    under [array] names a member of [Object.prototype]. *)
Inductive library_pattern : Pattern W -> Prop :=
| lib_lit v : library_pattern (PLit v)
| lib_fun f : library_pattern (PFun f)
| lib_obj fields : library_fields fields -> library_pattern (PObj fields)
| lib_tuple elems :
    library_patterns elems -> library_pattern (PTuple elems)
| lib_optional p : library_pattern p -> library_pattern (P.optional p)
| lib_array p :
    library_pattern p -> no_inherited (getSelectionKeys p) ->
    library_pattern (P.array p)
| lib_intersection ps :
    library_patterns ps -> library_pattern (P.intersection ps)
| lib_union ps : library_patterns ps -> library_pattern (P.union ps)
| lib_not p : library_pattern p -> library_pattern (P.not p)
| lib_when f : boolean_function f -> library_pattern (P.when f)
| lib_select key : library_pattern (P.select anonymousSelectKey key)
with library_patterns : list (Pattern W) -> Prop :=
| lib_nil : library_patterns []
| lib_cons p ps :
    library_pattern p -> library_patterns ps -> library_patterns (p :: ps)
with library_fields : list (string * Pattern W) -> Prop :=
| lib_fields_nil : library_fields []
| lib_fields_cons k p fields :
    library_pattern p -> library_fields fields ->
    library_fields ((k, p) :: fields).

Scheme library_pattern_min := Minimality for library_pattern Sort Prop
  with library_patterns_min := Minimality for library_patterns Sort Prop
  with library_fields_min := Minimality for library_fields Sort Prop.

Combined Scheme library_mutind
  from library_pattern_min, library_patterns_min, library_fields_min.

(** Matching returns a boolean, whatever the value and the
    environment. *)
Definition returns_boolean (p : Pattern W) : Prop :=
  forall v e,
    exists (b : bool) es e', emit p v e = (Ok (VBool b), (es, e')).

End Built.

(** ** The wildcards *)

(** [typeof x] on a data value. *)
Definition typeof (x : Value) : string :=
  match x with
  | VUndefined => "undefined"
  | VNull => "object"
  | VBool _ => "boolean"
  | VNum _ => "number"
  | VStr _ => "string"
  | VArr _ | VObj _ | VObjProto _ _ => "object"
  end.

(** The type guards of the library. *)
Definition isUnknown (x : Value) : bool := true.

Definition isNumber (x : Value) : bool := typeof x =? "number".

Definition isString (x : Value) : bool := typeof x =? "string".

Definition isBoolean (x : Value) : bool := typeof x =? "boolean".

Definition isNullish (x : Value) : bool :=
  value_eqb x VNull || value_eqb x VUndefined.

Section Guards.
Variable W : Type.

(** A type guard as a JavaScript function: it reads its first argument,
    [undefined] when there is none, and touches nothing. *)
Definition guard (id : nat) (f : Value -> bool) : func W :=
  {| fid := id;
     fbody := fun args w => (Ok (VBool (f (nth 0 args VUndefined))), w) |}.

(** The listed patterns were tested in order from [e] and each one
    matched; [es] is what they emitted and [e'] the environment left. *)
Inductive passed (v : Value)
  : list (Pattern W) -> env W -> list (string * Value) -> env W -> Prop :=
| passed_nil e : passed v [] e [] e
| passed_cons p ps e r es e1 es' e2 :
    emit p v e = (Ok r, (es, e1)) ->
    truthy r = true ->
    passed v ps e1 es' e2 ->
    passed v (p :: ps) e (es ++ es') e2.
End Guards.

Section Combined.
Variable W : Type.
Variable anonymousSelectKey : string.

(** The patterns made of literals, functions, shapes and the
    combinators of the library, with any predicate under [when]. *)
Inductive combined : Pattern W -> Prop :=
| comb_lit v : combined (PLit v)
| comb_fun f : combined (PFun f)
| comb_obj fields : combined_fields fields -> combined (PObj fields)
| comb_tuple elems : combined_list elems -> combined (PTuple elems)
| comb_optional p : combined p -> combined (P.optional p)
| comb_array p : combined p -> combined (P.array p)
| comb_intersection ps : combined_list ps -> combined (P.intersection ps)
| comb_union ps : combined_list ps -> combined (P.union ps)
| comb_not p : combined p -> combined (P.not p)
| comb_when f : combined (P.when f)
| comb_select key : combined (P.select anonymousSelectKey key)
with combined_list : list (Pattern W) -> Prop :=
| comb_nil : combined_list []
| comb_cons p ps : combined p -> combined_list ps -> combined_list (p :: ps)
with combined_fields : list (string * Pattern W) -> Prop :=
| comb_fields_nil : combined_fields []
| comb_fields_cons k p fields :
    combined p -> combined_fields fields ->
    combined_fields ((k, p) :: fields).

Scheme combined_min := Minimality for combined Sort Prop
  with combined_list_min := Minimality for combined_list Sort Prop
  with combined_fields_min := Minimality for combined_fields Sort Prop.

Combined Scheme combined_mutind
  from combined_min, combined_list_min, combined_fields_min.

(** Whatever a match of [p] emits, it emits under a selection key that
    [p] declares. *)
Definition emits_declared_keys (p : Pattern W) : Prop :=
  forall v e r es e',
    emit p v e = (r, (es, e')) ->
    forall key, In key (map fst es) -> In key (getSelectionKeys p).
End Combined.

(** The wildcard patterns [P.__], [P.string], [P.number], [P.boolean]
    and [P.nullish]; the numbers are the identities of their guards. *)
Module Wildcard.
Section Wildcards.
Variable W : Type.

Definition __ : Pattern W := P.when (guard W 100 isUnknown).

Definition number : Pattern W := P.when (guard W 102 isNumber).

Definition boolean : Pattern W := P.when (guard W 103 isBoolean).

Definition nullish : Pattern W := P.when (guard W 104 isNullish).

Definition string : Pattern W := P.when (guard W 101 isString).
End Wildcards.
End Wildcard.

(** ** A sample program *)

Module Sample.
(** The anonymous key.  The world is a number, which every function
    below increments when called. *)
Definition anon : string := "@anonymous".

(** A handler that returns its arguments. *)
Definition echo : func nat :=
  {| fid := 1; fbody := fun args w => (Ok (VArr args), S w) |}.

(** [() => false] and [() => true]. *)
Definition never : func nat :=
  {| fid := 2; fbody := fun _ w => (Ok (VBool false), S w) |}.

Definition always : func nat :=
  {| fid := 3; fbody := fun _ w => (Ok (VBool true), S w) |}.

(** [() => { throw "boom" }]. *)
Definition thrower : func nat :=
  {| fid := 4; fbody := fun _ w => (Throw (Thrown (VStr "boom")), S w) |}.

(** A serializer that knows strings and [null] and throws on the
    rest, and a conversion to string. *)
Definition stringify (v : Value) : option Value :=
  match v with
  | VStr s => Some (VStr ("'" ++ s ++ "'"))
  | VNull => Some (VStr "null")
  | _ => None
  end.

Definition show (v : Value) : string :=
  match v with
  | VStr s => s
  | VUndefined => "undefined"
  | VNull => "null"
  | VBool true => "true"
  | VBool false => "false"
  | VNum _ => "[number]"
  | VArr _ => "[array]"
  | VObj _ | VObjProto _ _ => "[object Object]"
  end.

Definition e0 : env nat := {| world := 0; calls := [] |}.
Definition s0 : state nat := {| user := e0; heap := [] |}.

(** Cases as [when(never, echo)] and [when(always, echo)] make them. *)
Definition no : case nat :=
  {| test := fun v => in_user (call never [v]);
     handler := PFun echo;
     select := fun v => ret v |}.

Definition yes : case nat :=
  {| test := fun v => in_user (call always [v]);
     handler := PFun echo;
     select := fun v => ret v |}.

(** [{ a: select("x"), b: "A" }] and [{ b: "B" }]. *)
Definition captures_then_fails : Pattern nat :=
  PObj [("a", P.select anon (Some "x")); ("b", PLit (VStr "A"))].

Definition only_b : Pattern nat := PObj [("b", PLit (VStr "B"))].

(** [{ a: 1, b: "B" }]. *)
Definition subject : Value := VObj [("a", VNum 1); ("b", VStr "B")].

(** [() => v]. *)
Definition returns (id : nat) (v : Value) : func nat :=
  {| fid := id; fbody := fun _ w => (Ok v, S w) |}.

(** [(n) => n > 0]. *)
Definition positive : func nat :=
  {| fid := 5;
     fbody := fun args w =>
       (Ok (VBool match args with
                  | VNum n :: _ => (0 <? n)%Z
                  | _ => false
                  end), S w) |}.

(** A case whose test throws, and cases that always match with a
    handler that throws and with a handler that is not a function. *)
Definition boom : case nat :=
  {| test := fun v => in_user (call thrower [v]);
     handler := PFun echo;
     select := fun v => ret v |}.

Definition yes_throwing : case nat :=
  {| test := fun v => in_user (call always [v]);
     handler := PFun thrower;
     select := fun v => ret v |}.

Definition yes_not_callable : case nat :=
  {| test := fun v => in_user (call always [v]);
     handler := PLit (VStr "handler");
     select := fun v => ret v |}.

(** [match("B").with("A", () => "a").with("B", () => "b").exhaustive()]. *)
Definition letter_b : M error (state nat) Value :=
  b1 <- uncaught (with_ anon (match_ (VStr "B"))
                    [PLit (VStr "A"); PFun (returns 6 (VStr "a"))]) ;;
  b2 <- uncaught (with_ anon b1
                    [PLit (VStr "B"); PFun (returns 7 (VStr "b"))]) ;;
  exhaustive stringify show b2.

(** [match({type: "x"}).with({type: union("x", "y")}, () => "matched")
    .exhaustive()]. *)
Definition type_x : M error (state nat) Value :=
  b1 <- uncaught (with_ anon (match_ (VObj [("type", VStr "x")]))
                    [PObj [("type", P.union [PLit (VStr "x");
                                             PLit (VStr "y")])];
                     PFun (returns 6 (VStr "matched"))]) ;;
  exhaustive stringify show b1.

(** [match([1, 2, 3]).with(array(when(n => n > 0)), () => "all positive")
    .exhaustive()]. *)
Definition all_positive : M error (state nat) Value :=
  b1 <- uncaught (with_ anon (match_ (VArr [VNum 1; VNum 2; VNum 3]))
                    [P.array (P.when positive);
                     PFun (returns 6 (VStr "all positive"))]) ;;
  exhaustive stringify show b1.
End Sample.


(** ** Properties of the array methods *)

Section ArrayMethodFacts.
Context {E St A : Type}.
Variable callback : A -> nat -> M E St Value.

Lemma find_from_app_found (pre post : list A) (c : A) :
  forall i s s1 s2 r,
    find_from callback i pre s = (Ok None, s1) ->
    callback c (i + List.length pre) s1 = (Ok r, s2) ->
    truthy r = true ->
    find_from callback i (pre ++ c :: post) s = (Ok (Some c), s2).
Proof.
  induction pre as [|x pre IH]; intros i s s1 s2 r Hpre Hc Ht; simpl in *.
  - inversion Hpre; subst. rewrite Nat.add_0_r in Hc.
    unfold bind. rewrite Hc, Ht. reflexivity.
  - unfold bind in *.
    destruct (callback x i s) as [[rx|ex] sx]; [|discriminate].
    destruct (truthy rx); [discriminate|].
    apply IH with (s1 := s1) (r := r); auto.
    rewrite <- Nat.add_succ_comm in Hc. exact Hc.
Qed.
End ArrayMethodFacts.

(** ** Resolution: [run], [exhaustive], [otherwise] *)

Section Resolution.
Variable W : Type.
Variable JSON_stringify : Value -> option Value.
Variable ToString : Value -> string.

Local Abbreviation run := (run JSON_stringify ToString).
Local Abbreviation exhaustive := (exhaustive JSON_stringify ToString).
Local Abbreviation otherwise := (otherwise JSON_stringify ToString).

Lemma scan_from_index (v : Value) (cs : list (case W)) :
  forall i s, find_from (fun c (_ : nat) => test c v) i cs s = scan v cs s.
Proof.
  unfold scan, find. generalize 0.
  induction cs as [|c cs IH]; intros n i s; simpl; [reflexivity|].
  unfold bind. destruct (test c v s) as [[r|e] s1]; [|reflexivity].
  destruct (truthy r); [reflexivity|]. rewrite (IH (S n)). reflexivity.
Qed.

Lemma scan_cons (v : Value) (c : case W) (cs : list (case W)) (s : state W) :
  scan v (c :: cs) s =
  match test c v s with
  | (Ok r, s1) => if truthy r then (Ok (Some c), s1) else scan v cs s1
  | (Throw e, s1) => (Throw e, s1)
  end.
Proof.
  unfold scan at 1, find. simpl. unfold bind.
  destruct (test c v s) as [[r|e] s1]; [|reflexivity].
  destruct (truthy r); [reflexivity|]. apply scan_from_index.
Qed.

Lemma scan_rejected (v : Value) (cs : list (case W)) (s s' : state W) :
  rejected v cs s s' <-> scan v cs s = (Ok None, s').
Proof.
  split.
  - induction 1 as [s|c cs s r s1 s2 Ht Hr _ IH]; [reflexivity|].
    rewrite scan_cons, Ht, Hr. exact IH.
  - revert s. induction cs as [|c cs IH]; intros s H.
    + inversion H; subst. constructor.
    + rewrite scan_cons in H.
      destruct (test c v s) as [[r|e] s1] eqn:Ht; [|discriminate].
      destruct (truthy r) eqn:Hr; [discriminate|].
      econstructor; eauto.
Qed.

Lemma scan_first (v : Value) (pre post : list (case W)) (c : case W)
  (s s1 s2 : state W) (r : Value) :
  rejected v pre s s1 ->
  test c v s1 = (Ok r, s2) ->
  truthy r = true ->
  scan v (pre ++ c :: post) s = (Ok (Some c), s2).
Proof.
  intros Hpre Ht Hr. unfold scan, find.
  apply find_from_app_found with (s1 := s1) (r := r); auto.
  apply scan_rejected in Hpre. exact Hpre.
Qed.

(** With a last case whose test is always true, the scan finds a
    case or a test throws. *)
Lemma scan_catch_all (v : Value) (cs : list (case W)) (c : case W) :
  (forall s, test c v s = (Ok (VBool true), s)) ->
  forall s s', scan v (cs ++ [c]) s <> (Ok None, s').
Proof.
  intros Hc. induction cs as [|x cs IH]; intros s s'; simpl.
  - rewrite scan_cons, Hc. simpl. discriminate.
  - rewrite scan_cons. destruct (test x v s) as [[r|e] s1]; [|discriminate].
    destruct (truthy r); [discriminate|]. apply IH.
Qed.

Lemma uncaught_not_unhandled {A : Type} (m : M exn (state W) A)
  (s : state W) (message : string) :
  fst (uncaught m s) <> Throw (UnhandledMatchError message).
Proof.
  unfold uncaught. destruct (m s) as [[a|e] s1]; simpl; discriminate.
Qed.

(** What [run] does once the scan is known. *)
Lemma run_unfold (b : Builder W) (s : state W) :
  run b s =
  match scan (value b) (cases b) s with
  | (Ok (Some entry), s1) =>
      uncaught
        (x <- select entry (value b) ;;
         in_user (call_value (handler entry) [x; value b])) s1
  | (Ok None, s1) =>
      (Throw (UnhandledMatchError
                ("Pattern matching error: no pattern matches value "
                   ++ ToString match JSON_stringify (value b) with
                               | Some d => d
                               | None => value b
                               end)), s1)
  | (Throw e, s1) => (Throw (Uncaught e), s1)
  end.
Proof.
  unfold run, scan, bind, uncaught at 1.
  destruct (find (cases b) (fun c _ => test c (value b)) s)
    as [[[entry|]|e] s1]; reflexivity.
Qed.

(** Resolution once the first case whose test succeeds is known. *)
Lemma run_winner (b : Builder W) (pre post : list (case W))
  (c : case W) (s s1 s2 : state W) (r : Value) :
  cases b = pre ++ c :: post ->
  rejected (value b) pre s s1 ->
  test c (value b) s1 = (Ok r, s2) ->
  truthy r = true ->
  run b s =
  uncaught
    (x <- select c (value b) ;;
     in_user (call_value (handler c) [x; value b])) s2.
Proof.
  intros Hcases Hpre Ht Hr. rewrite run_unfold, Hcases.
  rewrite scan_first with (s1 := s1) (s2 := s2) (r := r); auto.
Qed.

(** C1.  First match wins: when the tests of the cases before [c] all
    fail on the bound value and the test of [c] succeeds, each of
    [run], [exhaustive] and [otherwise] is the invocation of the
    handler of [c] on [(select c value, value)], whatever cases come
    after [c]; the only user call made after the test of [c] is the one
    call of that handler. *)
Theorem first_match_wins (b : Builder W) (pre post : list (case W))
  (c : case W) (s s1 s2 : state W) (r : Value) :
  cases b = pre ++ c :: post ->
  rejected (value b) pre s s1 ->
  test c (value b) s1 = (Ok r, s2) ->
  truthy r = true ->
  let invoke :=
    uncaught
      (x <- select c (value b) ;;
       in_user (call_value (handler c) [x; value b])) s2 in
  run b s = invoke
  /\ exhaustive b s = invoke
  /\ (forall h, otherwise b h s = invoke)
  /\ (forall x s3 f,
        select c (value b) s2 = (Ok x, s3) ->
        handler c = PFun f ->
        calls (user (snd (run b s)))
        = calls (user s3) ++ [(fid f, [x; value b])]).
Proof.
  intros Hcases Hpre Ht Hr invoke.
  assert (Hrun : run b s = invoke).
  { apply run_winner with (pre := pre) (post := post) (s1 := s1) (r := r);
      auto. }
  repeat split.
  - exact Hrun.
  - exact Hrun.
  - intros h. unfold otherwise. rewrite run_unfold. simpl.
    rewrite Hcases, <- app_assoc. simpl.
    rewrite scan_first with (s1 := s1) (s2 := s2) (r := r); auto.
  - intros x s3 f Hsel Hh. rewrite Hrun. unfold invoke, uncaught, bind.
    rewrite Hsel, Hh. unfold in_user. simpl. unfold call.
    destruct (fbody f [x; value b] (world (user s3))) as [[a|e] w'];
      reflexivity.
Qed.

(** C2.  [otherwise] never raises the unhandled-match error, and on a
    builder without cases it invokes its handler on the bound value;
    [run] and [exhaustive] raise that error exactly when the tests of
    all the cases fail, and its message carries the serialization of
    the value, or the value itself when the serialization throws. *)
Theorem otherwise_never_unhandled_run_when_exhausted
  (b : Builder W) (s : state W) :
  (forall h message,
      fst (otherwise b h s) <> Throw (UnhandledMatchError message))
  /\ (forall v h,
        otherwise (match_ v) h s = uncaught (in_user (call h [v; v])) s)
  /\ ((exists message, fst (run b s) = Throw (UnhandledMatchError message))
       <-> (exists s', rejected (value b) (cases b) s s'))
  /\ exhaustive b s = run b s
  /\ (forall s',
        rejected (value b) (cases b) s s' ->
        (forall d,
            JSON_stringify (value b) = Some d ->
            run b s =
            (Throw (UnhandledMatchError
                      ("Pattern matching error: no pattern matches value "
                         ++ ToString d)), s'))
        /\ (JSON_stringify (value b) = None ->
             run b s =
             (Throw (UnhandledMatchError
                       ("Pattern matching error: no pattern matches value "
                          ++ ToString (value b))), s'))).
Proof.
  split; [|split; [|split; [|split]]].
  - intros h message. unfold otherwise. rewrite run_unfold. simpl.
    destruct (scan (value b) (cases b ++ _) s) as [[[entry|]|e] s1] eqn:Hscan.
    + apply uncaught_not_unhandled.
    + exfalso. revert Hscan. apply scan_catch_all. reflexivity.
    + simpl. discriminate.
  - intros v h. unfold otherwise. rewrite run_unfold. reflexivity.
  - rewrite run_unfold. split.
    + intros [message H].
      destruct (scan (value b) (cases b) s) as [[[entry|]|e] s1] eqn:Hscan.
      * exfalso. revert H. apply uncaught_not_unhandled.
      * exists s1. apply scan_rejected. exact Hscan.
      * simpl in H. discriminate.
    + intros [s' H]. apply scan_rejected in H. rewrite H. simpl. eauto.
  - reflexivity.
  - intros s' H. apply scan_rejected in H. rewrite run_unfold, H.
    split; [intros d Hd|intros Hd]; rewrite Hd; reflexivity.
Qed.
End Resolution.

(** ** Captures are emitted independently of the selector *)

Section PatternInduction.
Variable W : Type.
Variable P : Pattern W -> Prop.
Hypothesis HLit : forall v, P (PLit v).
Hypothesis HFun : forall f, P (PFun f).
Hypothesis HObj :
  forall fields, Forall (fun kv => P (snd kv)) fields -> P (PObj fields).
Hypothesis HTuple : forall elems, Forall P elems -> P (PTuple elems).
Hypothesis HMatcher : forall m, P (PMatcher m).

(** Induction over a pattern and the sub-patterns of its shapes. *)
Fixpoint Pattern_shape_ind (p : Pattern W) : P p :=
  match p with
  | PLit v => HLit v
  | PFun f => HFun f
  | PObj fields =>
      HObj
        ((fix go (l : list (string * Pattern W))
            : Forall (fun kv => P (snd kv)) l :=
            match l with
            | [] => Forall_nil _
            | kv :: l' =>
                Forall_cons kv (Pattern_shape_ind (snd kv)) (go l')
            end) fields)
  | PTuple elems =>
      HTuple
        ((fix go (l : list (Pattern W)) : Forall P l :=
            match l with
            | [] => Forall_nil _
            | q :: l' => Forall_cons q (Pattern_shape_ind q) (go l')
            end) elems)
  | PMatcher m => HMatcher m
  end.
End PatternInduction.

Lemma forEach_app {E St A : Type} (f : A -> M E St unit)
  (xs ys : list A) (s : St) :
  forEach (xs ++ ys) f s =
  match forEach xs f s with
  | (Ok _, s1) => forEach ys f s1
  | (Throw x, s1) => (Throw x, s1)
  end.
Proof.
  revert s. induction xs as [|x xs IH]; intros s; simpl; [reflexivity|].
  unfold bind. destruct (f x s) as [[[]|x0] s1]; [apply IH|reflexivity].
Qed.

Lemma replay_app {St : Type} (sel : selector St)
  (es es' : list (string * Value)) (o : St) :
  replay sel (es ++ es') o =
  match replay sel es o with
  | (Ok _, o1) => replay sel es' o1
  | (Throw x, o1) => (Throw x, o1)
  end.
Proof. unfold replay. apply forEach_app. Qed.

Lemma replay_app_ok {St : Type} (sel : selector St)
  (es es' : list (string * Value)) (o o' : St) :
  replay sel (es ++ es') o = (Ok tt, o') ->
  exists o1, replay sel es o = (Ok tt, o1) /\ replay sel es' o1 = (Ok tt, o').
Proof.
  rewrite replay_app. destruct (replay sel es o) as [[[]|x] o1]; intros H.
  - exists o1. split; [reflexivity|exact H].
  - discriminate.
Qed.

Lemma replay_log (es l : list (string * Value)) :
  replay log es l = (Ok tt, l ++ es).
Proof.
  revert l. induction es as [|[k v] es IH]; intros l.
  - simpl. rewrite app_nil_r. reflexivity.
  - unfold replay in *. simpl. unfold bind, log at 1, modify. simpl.
    rewrite IH, <- app_assoc. reflexivity.
Qed.

Lemma replay_assign (es : list (string * Value)) (o : object) :
  replay assign es o = (Ok tt, store es o).
Proof.
  revert o. induction es as [|[k v] es IH]; intros o; [reflexivity|].
  unfold replay in *. simpl. unfold bind, assign at 1, modify. simpl.
  apply IH.
Qed.

Lemma replay_ignore {St : Type} (es : list (string * Value)) (o : St) :
  replay ignore es o = (Ok tt, o).
Proof.
  induction es as [|[k v] es IH]; [reflexivity|].
  unfold replay in *. simpl. unfold bind, ignore at 1, ret. exact IH.
Qed.

(** What a matcher's selections forward, in order. *)
Lemma forward_replay {St : Type} (sels : record) (sel : selector St) :
  forward sels sel
  = replay sel (map (fun key => (key, obj_get sels key)) (Object_keys sels)).
Proof.
  unfold forward, replay. generalize (Object_keys sels). intros keys.
  induction keys as [|k keys IH]; simpl; [reflexivity|].
  rewrite IH. reflexivity.
Qed.

Lemma forward_log (sels : record) (l : list (string * Value)) :
  forward sels log l
  = (Ok tt, l ++ map (fun key => (key, obj_get sels key)) (Object_keys sels)).
Proof. rewrite forward_replay. apply replay_log. Qed.

Section Replay.
Variable W : Type.

Local Abbreviation replayable m := (@replayable W _ m).

Lemma replayable_ret {A : Type} (a : A) : replayable (fun _ _ => ret a).
Proof.
  intros St sel o e r es e' Hlog. unfold ret in *.
  inversion Hlog; subst. reflexivity.
Qed.

(** A replayable computation run with [log] from a log that is not
    empty appends to it. *)
Lemma replayable_log {A : Type}
  (m : forall St : Type, selector St -> M exn (St * env W) A)
  (l : list (string * Value)) (e : env W) :
  replayable m ->
  m _ log (l, e) =
  match m _ log ([], e) with
  | (r, (es, e')) => (r, (l ++ es, e'))
  end.
Proof.
  intros Hm. destruct (m _ log ([], e)) as [r [es e']] eqn:Hlog.
  specialize (Hm _ log l e r es e' Hlog). rewrite replay_log in Hm.
  exact Hm.
Qed.

Lemma replayable_bind {A B : Type}
  (m : forall St : Type, selector St -> M exn (St * env W) A)
  (k : A -> forall St : Type, selector St -> M exn (St * env W) B) :
  replayable m ->
  (forall a, replayable (k a)) ->
  replayable (fun St sel => x <- m St sel ;; k x St sel).
Proof.
  intros Hm Hk St sel o e r es e' Hlog. unfold bind in *.
  destruct (m _ log ([], e)) as [[a|x] [es1 e1]] eqn:Hm1.
  - rewrite (replayable_log es1 e1 (Hk a)) in Hlog.
    destruct (k a _ log ([], e1)) as [r2 [es2 e2]] eqn:Hk1.
    inversion Hlog; subst; clear Hlog.
    rewrite replay_app.
    specialize (Hm _ sel o e _ _ _ Hm1).
    destruct (replay sel es1 o) as [[[]|x] o1].
    + rewrite Hm. apply (Hk a _ sel o1 e1 _ _ _ Hk1).
    + destruct Hm as [st' Hm]. exists st'. rewrite Hm. reflexivity.
  - inversion Hlog; subst; clear Hlog.
    specialize (Hm _ sel o e _ _ _ Hm1).
    destruct (replay sel es o) as [[[]|x0] o1].
    + rewrite Hm. reflexivity.
    + destruct Hm as [st' Hm]. exists st'. rewrite Hm. reflexivity.
Qed.

Lemma replayable_on_snd {A : Type} (m : M exn (env W) A) :
  replayable (fun _ _ => on_snd m).
Proof.
  intros St sel o e r es e' Hlog. unfold on_snd in *. simpl in *.
  destruct (m e) as [r0 e0]. inversion Hlog; subst. reflexivity.
Qed.

Lemma replayable_forward (sels : record) :
  replayable (fun St sel => on_fst (forward sels sel)).
Proof.
  intros St sel o e r es e' Hlog. unfold on_fst in *. simpl in *.
  rewrite forward_log in Hlog. simpl in Hlog. inversion Hlog; subst.
  rewrite forward_replay.
  destruct (replay sel _ o) as [[[]|x] o1]; [reflexivity|].
  eexists. reflexivity.
Qed.

Lemma replayable_every {A : Type}
  (callback : forall St : Type,
      selector St -> A -> nat -> M exn (St * env W) Value)
  (xs : list A) :
  Forall (fun x => forall i, replayable (fun St sel => callback St sel x i))
    xs ->
  forall i, replayable (fun St sel => every_from (callback St sel) i xs).
Proof.
  induction 1 as [|x xs Hx _ IH]; intros i; simpl.
  - apply replayable_ret.
  - apply (@replayable_bind _ _ (fun St sel => callback St sel x i)
             (fun r St sel => if truthy r
                              then every_from (callback St sel) (S i) xs
                              else ret false)).
    + apply Hx.
    + intros r. destruct (truthy r); [apply IH|apply replayable_ret].
Qed.

Lemma replayable_some {A : Type}
  (callback : forall St : Type,
      selector St -> A -> nat -> M exn (St * env W) Value)
  (xs : list A) :
  Forall (fun x => forall i, replayable (fun St sel => callback St sel x i))
    xs ->
  forall i, replayable (fun St sel => some_from (callback St sel) i xs).
Proof.
  induction 1 as [|x xs Hx _ IH]; intros i; simpl.
  - apply replayable_ret.
  - apply (@replayable_bind _ _ (fun St sel => callback St sel x i)
             (fun r St sel => if truthy r
                              then ret true
                              else some_from (callback St sel) (S i) xs)).
    + apply Hx.
    + intros r. destruct (truthy r); [apply replayable_ret|apply IH].
Qed.

(** Matching with a selector is matching with [log] and replaying the
    emitted captures. *)
Lemma matchPattern_replayable (p : Pattern W) :
  forall v, replayable (fun St sel => matchPattern p v sel).
Proof.
  induction p as [l|f|fields IH|elems IH|m] using Pattern_shape_ind;
    intros v.
  - apply replayable_ret.
  - apply replayable_ret.
  - simpl. destruct (keyed v); [|apply replayable_ret].
    apply (@replayable_bind _ _
             (fun St sel => every fields (fun kv _ =>
                matchPattern (snd kv) (value_get v (fst kv)) sel))
             (fun b _ _ => ret (VBool b))).
    + unfold every.
      apply (@replayable_every _
               (fun St sel kv (_ : nat) =>
                  matchPattern (snd kv) (value_get v (fst kv)) sel)).
      eapply Forall_impl; [|exact IH]. intros kv H _. apply H.
    + intros b. apply replayable_ret.
  - simpl. destruct v; try apply replayable_ret.
    destruct (List.length elems =? List.length elems0)%nat;
      [|apply replayable_ret].
    apply (@replayable_bind _ _
             (fun St sel => every elems (fun subPattern i =>
                matchPattern subPattern (nth i elems0 VUndefined) sel))
             (fun b _ _ => ret (VBool b))).
    + unfold every.
      apply (@replayable_every _
               (fun St sel subPattern i =>
                  matchPattern subPattern (nth i elems0 VUndefined) sel)).
      eapply Forall_impl; [|exact IH]. intros q H i. apply H.
    + intros b. apply replayable_ret.
  - simpl.
    apply (@replayable_bind _ _ (fun _ _ => on_snd (m_match m v))
             (fun r St sel =>
                (if truthy (matched r) then
                   match selections r with
                   | Some sels => on_fst (forward sels sel)
                   | None => ret tt
                   end
                 else ret tt) ;;; ret (matched r))).
    + apply replayable_on_snd.
    + intros r.
      apply (@replayable_bind _ _
               (fun St sel =>
                  if truthy (matched r) then
                    match selections r with
                    | Some sels => on_fst (forward sels sel)
                    | None => ret tt
                    end
                  else ret tt)
               (fun _ _ _ => ret (matched r))).
      * destruct (truthy (matched r)); [|apply replayable_ret].
        destruct (selections r);
        [apply replayable_forward|apply replayable_ret].
      * intros _. apply replayable_ret.
Qed.

(** The outcome of matching with a selector that takes the emitted
    captures without throwing, in terms of [emit]. *)
Lemma matchPattern_emit {St : Type} (p : Pattern W) (v : Value)
  (sel : selector St) (o o' : St) (e e' : env W) (r : result exn Value)
  (es : list (string * Value)) :
  emit p v e = (r, (es, e')) ->
  replay sel es o = (Ok tt, o') ->
  matchPattern p v sel (o, e) = (r, (o', e')).
Proof.
  intros He Hrep.
  assert (H := matchPattern_replayable p v sel o e He).
  simpl in H. rewrite Hrep in H. exact H.
Qed.

(** Matching throws what the selector throws on an emitted capture. *)
Lemma matchPattern_selector_throws {St : Type} (p : Pattern W) (v : Value)
  (sel : selector St) (o o1 : St) (e e' : env W) (r : result exn Value)
  (es : list (string * Value)) (x : exn) :
  emit p v e = (r, (es, e')) ->
  replay sel es o = (Throw x, o1) ->
  exists st', matchPattern p v sel (o, e) = (Throw x, st').
Proof.
  intros He Hrep.
  assert (H := matchPattern_replayable p v sel o e He).
  simpl in H. rewrite Hrep in H. exact H.
Qed.

(** A match that returns has handed all its captures to the
    selector. *)
Lemma matchPattern_returned {St : Type} (p : Pattern W) (v : Value)
  (sel : selector St) (o o' : St) (e e' : env W) (a : Value) :
  matchPattern p v sel (o, e) = (Ok a, (o', e')) ->
  exists es,
    emit p v e = (Ok a, (es, e')) /\ replay sel es o = (Ok tt, o').
Proof.
  intros H. destruct (emit p v e) as [r [es e1]] eqn:He.
  assert (Hr := matchPattern_replayable p v sel o e He). simpl in Hr.
  destruct (replay sel es o) as [[[]|x] o1] eqn:Hrep.
  - rewrite Hr in H. inversion H; subst. exists es.
    split; [reflexivity|exact Hrep].
  - destruct Hr as [st' Hr]. rewrite Hr in H. discriminate.
Qed.

(** The selectors that never throw. *)
Lemma matchPattern_assign (p : Pattern W) (v : Value) (o : object)
  (e : env W) :
  matchPattern p v assign (o, e) =
  match emit p v e with
  | (r, (es, e')) => (r, (store es o, e'))
  end.
Proof.
  destruct (emit p v e) as [r [es e']] eqn:He.
  apply matchPattern_emit with (es := es); [exact He|apply replay_assign].
Qed.

Lemma matchPattern_ignore {St : Type} (p : Pattern W) (v : Value) (o : St)
  (e : env W) :
  matchPattern p v ignore (o, e) =
  match emit p v e with
  | (r, (_, e')) => (r, (o, e'))
  end.
Proof.
  destruct (emit p v e) as [r [es e']] eqn:He.
  apply matchPattern_emit with (es := es); [exact He|apply replay_ignore].
Qed.

Lemma matchPattern_log (p : Pattern W) (v : Value)
  (l : list (string * Value)) (e : env W) :
  matchPattern p v log (l, e) =
  match emit p v e with
  | (r, (es, e')) => (r, (l ++ es, e'))
  end.
Proof.
  destruct (emit p v e) as [r [es e']] eqn:He.
  apply matchPattern_emit with (es := es); [exact He|apply replay_log].
Qed.
End Replay.

(** ** Plain objects under the selectors *)

Lemma obj_get_update (o : record) (k k' : string) (v : Value) :
  obj_has o k = true ->
  obj_get (obj_update o k v) k' = if k =? k' then v else obj_get o k'.
Proof.
  induction o as [|[k0 x] o IH]; simpl; [discriminate|].
  destruct (k0 =? k) eqn:E0; simpl.
  - intros _. apply String.eqb_eq in E0. subst k0.
    destruct (k =? k'); reflexivity.
  - intros H. destruct (k0 =? k') eqn:E1.
    + apply String.eqb_eq in E1. subst k0. rewrite String.eqb_sym, E0.
      reflexivity.
    + apply IH. exact H.
Qed.

Lemma obj_has_update (o : record) (k k' : string) (v : Value) :
  obj_has o k = true ->
  obj_has (obj_update o k v) k' = (k =? k') || obj_has o k'.
Proof.
  induction o as [|[k0 x] o IH]; simpl; [discriminate|].
  destruct (k0 =? k) eqn:E0; simpl.
  - intros _. apply String.eqb_eq in E0. subst k0.
    destruct (k =? k'); reflexivity.
  - intros H. rewrite IH by exact H.
    destruct (k0 =? k'), (k =? k'); reflexivity.
Qed.

(** A property added anywhere to an object that does not own it. *)
Lemma obj_get_added (pre post : record) (k k' : string) (v : Value) :
  obj_has pre k = false ->
  obj_get (pre ++ (k, v) :: post) k'
  = if k =? k' then v else obj_get (pre ++ post) k'.
Proof.
  induction pre as [|[k0 x] pre IH]; simpl.
  - reflexivity.
  - intros H. apply orb_false_iff in H. destruct H as [E0 H].
    destruct (k0 =? k') eqn:E1.
    + apply String.eqb_eq in E1. subst k0. rewrite String.eqb_sym, E0.
      reflexivity.
    + apply IH. exact H.
Qed.

Lemma obj_has_added (pre post : record) (k k' : string) (v : Value) :
  obj_has (pre ++ (k, v) :: post) k' = (k =? k') || obj_has (pre ++ post) k'.
Proof.
  induction pre as [|[k0 x] pre IH]; simpl.
  - reflexivity.
  - rewrite IH. destruct (k0 =? k'), (k =? k'); reflexivity.
Qed.

Lemma obj_add_index_split (o : record) (i : N) (k : string) (v : Value) :
  exists pre post,
    o = pre ++ post /\ obj_add_index o i k v = pre ++ (k, v) :: post.
Proof.
  induction o as [|[k0 x] o IH]; simpl.
  - exists [], []. split; reflexivity.
  - destruct (array_index k0) as [j|].
    + destruct (j <? i)%N.
      * destruct IH as (pre & post & -> & ->).
        exists ((k0, x) :: pre), post. split; reflexivity.
      * exists [], ((k0, x) :: o). split; reflexivity.
    + exists [], ((k0, x) :: o). split; reflexivity.
Qed.

(** A record with a property set is the record with the property
    added somewhere, or updated in place. *)
Lemma obj_set_split (o : record) (k : string) (v : Value) :
  obj_has o k = false ->
  exists pre post, o = pre ++ post /\ obj_set o k v = pre ++ (k, v) :: post.
Proof.
  intros H. unfold obj_set. rewrite H.
  destruct (array_index k) as [i|].
  - apply obj_add_index_split.
  - exists o, []. split; [symmetry; apply app_nil_r|reflexivity].
Qed.

Lemma obj_has_app_l (pre post : record) (k : string) :
  obj_has (pre ++ post) k = false -> obj_has pre k = false.
Proof.
  induction pre as [|[k0 x] pre IH]; simpl; [reflexivity|].
  intros H. apply orb_false_iff in H. destruct H as [E H].
  rewrite E. apply IH. exact H.
Qed.

Lemma obj_get_set (o : record) (k k' : string) (v : Value) :
  obj_get (obj_set o k v) k' = if k =? k' then v else obj_get o k'.
Proof.
  destruct (obj_has o k) eqn:H.
  - unfold obj_set. rewrite H. apply obj_get_update. exact H.
  - destruct (obj_set_split o k v H) as (pre & post & Ho & ->).
    subst o. apply obj_get_added. exact (obj_has_app_l _ _ _ H).
Qed.

Lemma obj_has_set (o : record) (k k' : string) (v : Value) :
  obj_has (obj_set o k v) k' = (k =? k') || obj_has o k'.
Proof.
  destruct (obj_has o k) eqn:H.
  - unfold obj_set. rewrite H. apply obj_has_update. exact H.
  - destruct (obj_set_split o k v H) as (pre & post & Ho & ->).
    subst o. apply obj_has_added.
Qed.

Lemma obj_set_nil (k : string) (v : Value) : obj_set [] k v = [(k, v)].
Proof. unfold obj_set. simpl. destruct (array_index k); reflexivity. Qed.

Lemma obj_set_single (k : string) (x y : Value) :
  obj_set [(k, x)] k y = [(k, y)].
Proof. unfold obj_set. simpl. rewrite String.eqb_refl. reflexivity. Qed.

Lemma obj_set_not_empty (o : record) (k : string) (v : Value) :
  obj_set o k v <> [].
Proof.
  intros H. assert (Hhas := obj_has_set o k k v). rewrite H in Hhas.
  rewrite String.eqb_refl in Hhas. discriminate.
Qed.

Lemma store_app (es es' : list (string * Value)) (o : object) :
  store (es ++ es') o = store es' (store es o).
Proof. unfold store. apply fold_left_app. Qed.

Lemma written_app (es es' : list (string * Value)) (o : record) :
  written (es ++ es') o = written es' (written es o).
Proof. unfold written. apply fold_left_app. Qed.

(** Assigning to a key other than [__proto__] writes an own property. *)
Lemma set_property_own (o : object) (key : string) (v : Value) :
  key <> "__proto__" ->
  set_property o key v
  = {| own := obj_set (own o) key v; proto := proto o |}.
Proof.
  intros H. unfold set_property.
  destruct (key =? "__proto__") eqn:E; [|reflexivity].
  apply String.eqb_eq in E. contradiction.
Qed.

(** An object created by [{}] takes a value that is neither an object
    nor [null] under [__proto__] without any change. *)
Lemma set_property_proto_ignored (o : object) (v : Value) :
  proto o = None ->
  obj_has (own o) "__proto__" = false ->
  is_object_or_null v = false ->
  set_property o "__proto__" v = o.
Proof.
  intros Hp Hown Hv. unfold set_property. rewrite Hp, Hown, Hv.
  reflexivity.
Qed.

Lemma store_written (es : list (string * Value)) :
  forall o : object,
    ~ In "__proto__" (map fst es) ->
    store es o = {| own := written es (own o); proto := proto o |}.
Proof.
  induction es as [|[k x] es IH]; intros o H.
  - destruct o. reflexivity.
  - change (store ((k, x) :: es) o) with (store es (set_property o k x)).
    change (written ((k, x) :: es) (own o))
      with (written es (obj_set (own o) k x)).
    simpl in H. rewrite set_property_own by (intros E; apply H; left; auto).
    rewrite IH by (intros E; apply H; right; exact E). reflexivity.
Qed.

Lemma obj_has_written (es : list (string * Value)) :
  forall (o : record) (k : string),
    obj_has (written es o) k
    = obj_has o k || existsb (fun kv => fst kv =? k) es.
Proof.
  induction es as [|[k0 x] es IH]; intros o k.
  - simpl. symmetry. apply orb_false_r.
  - change (written ((k0, x) :: es) o) with (written es (obj_set o k0 x)).
    rewrite IH, obj_has_set. simpl.
    destruct (k0 =? k), (obj_has o k); reflexivity.
Qed.

Lemma last_emitted_from (es : list (string * Value)) (k : string) :
  forall acc,
    fold_left (fun acc kv => if fst kv =? k then Some (snd kv) else acc)
      es acc
    = match last_emitted es k with
      | Some x => Some x
      | None => acc
      end.
Proof.
  unfold last_emitted.
  induction es as [|[k0 x] es IH]; intros acc; simpl; [reflexivity|].
  rewrite IH. rewrite (IH (if k0 =? k then Some x else None)).
  destruct (fold_left _ es None); [reflexivity|].
  destruct (k0 =? k); reflexivity.
Qed.

Lemma obj_get_written (es : list (string * Value)) :
  forall (o : record) (k : string),
    obj_get (written es o) k
    = match last_emitted es k with
      | Some x => x
      | None => obj_get o k
      end.
Proof.
  induction es as [|[k0 x] es IH]; intros o k.
  - reflexivity.
  - change (written ((k0, x) :: es) o) with (written es (obj_set o k0 x)).
    rewrite IH, obj_get_set. unfold last_emitted at 2. simpl.
    rewrite last_emitted_from.
    destruct (last_emitted es k); [reflexivity|].
    destruct (k0 =? k); reflexivity.
Qed.

(** A key other than [__proto__] is an own property that holds the
    last value assigned under it. *)
Lemma obj_get_set_property (o : object) (key k : string) (v : Value) :
  k <> "__proto__" ->
  obj_get (own (set_property o key v)) k
  = if key =? k then v else obj_get (own o) k.
Proof.
  intros Hk. unfold set_property.
  destruct (key =? "__proto__") eqn:E; simpl.
  - apply String.eqb_eq in E. subst key.
    assert (Hne : ("__proto__" =? k) = false).
    { apply String.eqb_neq. auto. }
    destruct (negb (obj_has (own o) "__proto__")
              && match proto o with
                 | None => true
                 | Some p => reaches_proto_accessor p
                 end).
    + rewrite Hne. destruct (is_object_or_null v); reflexivity.
    + simpl. apply obj_get_set.
  - apply obj_get_set.
Qed.

Lemma obj_has_set_property (o : object) (key k : string) (v : Value) :
  k <> "__proto__" ->
  obj_has (own (set_property o key v)) k = (key =? k) || obj_has (own o) k.
Proof.
  intros Hk. unfold set_property.
  destruct (key =? "__proto__") eqn:E; simpl.
  - apply String.eqb_eq in E. subst key.
    assert (Hne : ("__proto__" =? k) = false).
    { apply String.eqb_neq. auto. }
    destruct (negb (obj_has (own o) "__proto__")
              && match proto o with
                 | None => true
                 | Some p => reaches_proto_accessor p
                 end).
    + rewrite Hne. destruct (is_object_or_null v); reflexivity.
    + simpl. apply obj_has_set.
  - apply obj_has_set.
Qed.

Lemma obj_get_store (es : list (string * Value)) (k : string) :
  k <> "__proto__" ->
  forall o : object,
    obj_get (own (store es o)) k
    = match last_emitted es k with
      | Some x => x
      | None => obj_get (own o) k
      end.
Proof.
  intros Hk. induction es as [|[k0 x] es IH]; intros o.
  - reflexivity.
  - change (store ((k0, x) :: es) o) with (store es (set_property o k0 x)).
    rewrite IH, obj_get_set_property by exact Hk.
    unfold last_emitted at 2. simpl. rewrite last_emitted_from.
    destruct (last_emitted es k); [reflexivity|].
    destruct (k0 =? k); reflexivity.
Qed.

Lemma obj_has_store (es : list (string * Value)) (k : string) :
  k <> "__proto__" ->
  forall o : object,
    obj_has (own (store es o)) k
    = obj_has (own o) k || existsb (fun kv => fst kv =? k) es.
Proof.
  intros Hk. induction es as [|[k0 x] es IH]; intros o.
  - simpl. symmetry. apply orb_false_r.
  - change (store ((k0, x) :: es) o) with (store es (set_property o k0 x)).
    rewrite IH, obj_has_set_property by exact Hk. simpl.
    destruct (k0 =? k), (obj_has (own o) k); reflexivity.
Qed.

Lemma last_emitted_none (es : list (string * Value)) (k : string) :
  ~ In k (map fst es) -> last_emitted es k = None.
Proof.
  unfold last_emitted. induction es as [|[k0 x] es IH]; intros H; simpl.
  - reflexivity.
  - simpl in H. rewrite last_emitted_from.
    destruct (k0 =? k) eqn:E.
    + apply String.eqb_eq in E. exfalso. apply H. left. exact E.
    + unfold last_emitted. rewrite IH; [reflexivity|]. intros Hin. apply H.
      right. exact Hin.
Qed.

(** Seeding keys with [undefined]. *)
Lemma forEach_key_assign (keys : list string) (o : object) :
  forEach_key keys assign VUndefined o = (Ok tt, store (seeds keys) o).
Proof.
  unfold forEach_key. revert o.
  induction keys as [|k keys IH]; intros o; [reflexivity|].
  simpl. unfold bind, assign at 1, modify. simpl. apply IH.
Qed.

(** On an object created by [{}], seeding leaves the prototype alone
    and writes the keys other than [__proto__]. *)
Lemma store_seeds (keys : list string) :
  forall o : object,
    proto o = None ->
    obj_has (own o) "__proto__" = false ->
    store (seeds keys) o
    = {| own :=
           written (seeds (filter (fun k => negb (k =? "__proto__")) keys))
             (own o);
         proto := None |}.
Proof.
  induction keys as [|k keys IH]; intros o Hp Hown.
  - destruct o as [ow pr]. simpl in *. subst. reflexivity.
  - change (store (seeds (k :: keys)) o)
      with (store (seeds keys) (set_property o k VUndefined)).
    simpl. destruct (k =? "__proto__") eqn:E; simpl.
    + apply String.eqb_eq in E. subst k.
      rewrite set_property_proto_ignored; auto.
    + assert (Hk : k <> "__proto__").
      { intros ->. rewrite String.eqb_refl in E. discriminate. }
      rewrite set_property_own by exact Hk.
      rewrite IH; simpl; auto.
      rewrite obj_has_set, E, Hown. reflexivity.
Qed.

Lemma last_emitted_seeds (keys : list string) (k : string) :
  last_emitted (seeds keys) k
  = if existsb (fun key => key =? k) keys then Some VUndefined else None.
Proof.
  unfold last_emitted. generalize (@None Value).
  induction keys as [|k0 keys IH]; intros acc; simpl; [reflexivity|].
  rewrite IH. destruct (k0 =? k); simpl.
  - destruct (existsb _ keys); reflexivity.
  - reflexivity.
Qed.

Lemma obj_get_seeds (keys : list string) :
  forall (o : record) (k : string),
    obj_get o k = VUndefined ->
    obj_get (written (seeds keys) o) k = VUndefined.
Proof.
  intros o k H. rewrite obj_get_written, last_emitted_seeds.
  destruct (existsb _ keys); [reflexivity|exact H].
Qed.

Lemma existsb_seeds (keys : list string) (k : string) :
  existsb (fun kv => fst kv =? k) (seeds keys)
  = existsb (fun key => key =? k) keys.
Proof.
  unfold seeds. induction keys as [|k0 keys IH]; simpl; [reflexivity|].
  rewrite IH. reflexivity.
Qed.

Lemma obj_has_seeds (keys : list string) :
  forall (o : record) (k : string),
    obj_has (written (seeds keys) o) k
    = obj_has o k || existsb (fun key => key =? k) keys.
Proof.
  intros o k. rewrite obj_has_written. f_equal.
  unfold seeds. induction keys as [|k0 keys IH]; simpl; [reflexivity|].
  rewrite IH. reflexivity.
Qed.

(** ** Testing listed patterns in order *)

Section Listed.
Variable W : Type.

(** All listed patterns fail: [some] is false and the object has
    received what the failed patterns emitted. *)
Lemma some_tried (v : Value) (ps : list (Pattern W))
  (e e1 : env W) (es : list (string * Value)) :
  tried v ps e es e1 ->
  forall i o,
    some_from (fun p (_ : nat) => matchPattern p v assign) i ps (o, e)
    = (Ok false, (store es o, e1)).
Proof.
  induction 1 as [e|p ps e r es e1 es' e2 Hp Hr _ IH]; intros i o; simpl.
  - reflexivity.
  - unfold bind. rewrite matchPattern_assign, Hp, Hr, IH, store_app.
    reflexivity.
Qed.

(** The first listed pattern that matches ends the scan. *)
Lemma some_first (v : Value)
  (pre post : list (Pattern W)) (p : Pattern W) (e e1 e2 : env W)
  (es_pre es : list (string * Value)) (r : Value) :
  tried v pre e es_pre e1 ->
  emit p v e1 = (Ok r, (es, e2)) ->
  truthy r = true ->
  forall i o,
    some_from (fun p (_ : nat) => matchPattern p v assign) i
      (pre ++ p :: post) (o, e)
    = (Ok true, (store (es_pre ++ es) o, e2)).
Proof.
  intros Hpre Hp Hr.
  induction Hpre as [e|q ps e rq esq e1 es' e1' Hq Hrq _ IH];
    intros i o; simpl; unfold bind.
  - rewrite matchPattern_assign, Hp, Hr. reflexivity.
  - rewrite matchPattern_assign, Hq, Hrq, (IH Hp), <- app_assoc.
    rewrite (store_app esq). reflexivity.
Qed.

(** What a scan that returned tells about the listed patterns. *)
Lemma some_inv (v : Value) (ps : list (Pattern W)) :
  forall i o e (b : bool) o' e',
    some_from (fun p (_ : nat) => matchPattern p v assign) i ps (o, e)
    = (Ok b, (o', e')) ->
    if b then
      exists pre p post es_pre e1 r es,
        ps = pre ++ p :: post
        /\ tried v pre e es_pre e1
        /\ emit p v e1 = (Ok r, (es, e'))
        /\ truthy r = true
    else exists es, tried v ps e es e'.
Proof.
  induction ps as [|q ps IH]; intros i o e b o' e' H; simpl in H.
  - inversion H; subst. exists []. constructor.
  - unfold bind in H. rewrite matchPattern_assign in H.
    destruct (emit q v e) as [[r|x] [es e1]] eqn:Hq; [|discriminate].
    destruct (truthy r) eqn:Hr.
    + inversion H; subst.
      exists [], q, ps, [], e, r, es. repeat split; auto. constructor.
    + specialize (IH _ _ _ _ _ _ H). destruct b.
      * destruct IH
          as (pre & p & post & es_pre & e1' & r' & es' & -> & Ht & Hp & Hr').
        exists (q :: pre), p, post, (es ++ es_pre), e1', r', es'.
        repeat split; auto. econstructor; eauto.
      * destruct IH as [es' Ht]. exists (es ++ es'). econstructor; eauto.
Qed.

(** A pattern that is not a shape emits nothing when it fails. *)
Lemma emit_fail_not_shape (p : Pattern W) (v : Value) (e e1 : env W)
  (r : Value) (es : list (string * Value)) :
  is_shape p = false ->
  emit p v e = (Ok r, (es, e1)) ->
  truthy r = false ->
  es = [].
Proof.
  unfold emit. destruct p as [l|f|fields|elems|m]; simpl;
    try discriminate; intros _ H Hr.
  - inversion H; reflexivity.
  - inversion H; reflexivity.
  - unfold bind, on_snd in H. simpl in H.
    destruct (m_match m v e) as [[res|x] e']; [|discriminate].
    destruct (truthy (matched res)) eqn:Hm.
    + exfalso.
      destruct (selections res) as [sels|]; simpl in H.
      * unfold on_fst in H. simpl in H. rewrite forward_log in H.
        simpl in H. inversion H; subst. congruence.
      * inversion H; subst. congruence.
    + simpl in H. inversion H; reflexivity.
Qed.

Lemma tried_not_shapes (v : Value) (ps : list (Pattern W)) (e e1 : env W)
  (es : list (string * Value)) :
  tried v ps e es e1 ->
  forallb (fun q => negb (is_shape q)) ps = true ->
  es = [].
Proof.
  induction 1 as [e|p ps e r es e1 es' e2 Hp Hr _ IH]; intros Hall.
  - reflexivity.
  - simpl in Hall. apply andb_prop in Hall. destruct Hall as [Hs Hall].
    apply negb_true_iff in Hs.
    rewrite (emit_fail_not_shape p v e Hs Hp Hr), (IH Hall). reflexivity.
Qed.
End Listed.

Lemma last_emitted_existsb (es : list (string * Value)) (k : string) :
  existsb (fun kv => fst kv =? k) es
  = match last_emitted es k with Some _ => true | None => false end.
Proof.
  induction es as [|[k0 x] es IH]; [reflexivity|].
  unfold last_emitted. simpl. rewrite last_emitted_from, IH.
  destruct (last_emitted es k); [apply orb_true_r|].
  destruct (k0 =? k); reflexivity.
Qed.

Lemma written_not_empty (es : list (string * Value)) :
  forall o, es <> [] \/ o <> [] -> written es o <> [].
Proof.
  induction es as [|[k x] es IH]; intros o H.
  - destruct H as [H|H]; [contradiction|exact H].
  - change (written ((k, x) :: es) o) with (written es (obj_set o k x)).
    apply IH. right. apply obj_set_not_empty.
Qed.

(** ** The cases [with] and [when] build *)

Lemma nth_set_nth {A : Type} (xs : list A) (d x : A) :
  forall i, i < List.length xs -> nth i (set_nth i x xs) d = x.
Proof.
  induction xs as [|y xs IH]; intros i Hi; simpl in *; [lia|].
  destruct i; simpl; [reflexivity|]. apply IH. lia.
Qed.

Section WithCases.
Variable W : Type.
Variable anonymousSelectKey : string.
Variable JSON_stringify : Value -> option Value.
Variable ToString : Value -> string.

Local Abbreviation run := (run JSON_stringify ToString).
Local Abbreviation with_ := (with_ anonymousSelectKey).
Local Abbreviation first_argument := (first_argument anonymousSelectKey).
Local Abbreviation undefined := (PLit VUndefined : Pattern W).
Local Abbreviation with_case := (with_case anonymousSelectKey).

Lemma with_unfold (b : Builder W) (args : list (Pattern W)) (s : state W) :
  with_ b args s =
  (Ok (builder (value b)
         (cases b ++ [with_case (List.length (heap s)) args])),
   {| user := user s; heap := heap s ++ [empty_object] |}).
Proof.
  unfold with_, with_case, with_patterns, with_predicates,
    guard_form.
  destruct ((List.length args =? 3)%nat
            && is_function (nth 1 args (PLit VUndefined))); reflexivity.
Qed.

Lemma every_on_snd {St A : Type} (f : A -> nat -> M exn (env W) Value)
  (xs : list A) :
  forall i (o : St) e,
    every_from (fun x j => on_snd (f x j)) i xs (o, e) =
    match every_from f i xs e with
    | (r, e') => (r, (o, e'))
    end.
Proof.
  induction xs as [|x xs IH]; intros i o e; simpl; [reflexivity|].
  unfold bind, on_snd. simpl.
  destruct (f x i e) as [[r|ex] e1]; [|reflexivity].
  destruct (truthy r); [apply IH|reflexivity].
Qed.

(** [doesMatch] in terms of the scan of the patterns and the guards. *)
Lemma doesMatch_unfold (loc : nat) (patterns predicates : list (Pattern W))
  (v : Value) (s : state W) :
  doesMatch loc patterns predicates v s =
  match some patterns (fun p _ => matchPattern p v assign)
          (nth loc (heap s) empty_object, user s) with
  | (Ok true, (o, e1)) =>
      match every predicates (fun q _ => call_value q [v]) e1 with
      | (Ok g, e2) =>
          (Ok (VBool g), {| user := e2; heap := set_nth loc o (heap s) |})
      | (Throw x, e2) =>
          (Throw x, {| user := e2; heap := set_nth loc o (heap s) |})
      end
  | (Ok false, (o, e1)) =>
      (Ok (VBool false), {| user := e1; heap := set_nth loc o (heap s) |})
  | (Throw x, (o, e1)) =>
      (Throw x, {| user := e1; heap := set_nth loc o (heap s) |})
  end.
Proof.
  unfold doesMatch, in_cell, bind.
  destruct (some patterns _ _) as [[[|]|x] [o e1]]; try reflexivity.
  unfold every. rewrite every_on_snd.
  destruct (every_from _ 0 predicates e1) as [[g|x] e2]; reflexivity.
Qed.

Lemma first_argument_cases (selected : object) (v : Value) :
  (own selected = [] -> first_argument selected v = v)
  /\ (own selected <> [] ->
       has_property selected anonymousSelectKey = true ->
       first_argument selected v
       = get_property selected anonymousSelectKey)
  /\ (own selected <> [] ->
       has_property selected anonymousSelectKey = false ->
       first_argument selected v = to_value selected).
Proof.
  unfold first_argument, Object_keys.
  destruct (own selected) as [|[k x] o] eqn:Hown; simpl.
  - repeat split; try reflexivity; intros H; congruence.
  - repeat split; try discriminate; intros _ H; rewrite H; reflexivity.
Qed.

(** The first argument in terms of the captures a [selected] object
    created by [{}] has taken, none of them under [__proto__]. *)
Lemma first_argument_captures (es : list (string * Value)) (v : Value) :
  ~ In "__proto__" (map fst es) ->
  let x := first_argument (store es empty_object) v in
  (forall a, last_emitted es anonymousSelectKey = Some a -> x = a)
  /\ (last_emitted es anonymousSelectKey = None ->
       es <> [] -> x = VObj (written es []))
  /\ (es = [] -> x = v).
Proof.
  intros Hes. rewrite store_written by exact Hes. simpl.
  unfold first_argument, has_property, get_property, to_value,
    Object_keys. simpl.
  rewrite obj_has_written, obj_get_written, last_emitted_existsb. simpl.
  split; [|split].
  - intros a Ha. rewrite Ha.
    destruct (written es []) as [|kv o] eqn:Hw; simpl; [|reflexivity].
    exfalso. revert Hw. apply written_not_empty. left.
    intros ->. discriminate.
  - intros Hnone Hne. rewrite Hnone.
    destruct (written es []) as [|kv o] eqn:Hw; simpl; [|reflexivity].
    exfalso. revert Hw. apply written_not_empty. left. exact Hne.
  - intros ->. reflexivity.
Qed.

(** C3, as the code has it.  The handler of a winning [with] case is
    called with two arguments, the second being the bound value.  The
    first is the bound value when [selected] owns no property, else
    the property of [selected] under the anonymous key when it has
    one, else [selected] itself.  When the captures [selected] has
    taken were made under keys other than [__proto__], the first
    argument is the value captured under the anonymous key whenever
    that key is among the captures, be it alone or not; otherwise the
    record of captures when there is any; otherwise the bound
    value. *)
Theorem with_handler_arguments (b : Builder W) (args : list (Pattern W))
  (s0 : state W) :
  exists c,
    with_ b args s0 =
    (Ok (builder (value b) (cases b ++ [c])),
     {| user := user s0; heap := heap s0 ++ [empty_object] |})
    /\ handler c = nth (List.length args - 1) args undefined
    /\ forall (bb : Builder W) pre post s s1 s2 r,
        cases bb = pre ++ c :: post ->
        rejected (value bb) pre s s1 ->
        test c (value bb) s1 = (Ok r, s2) ->
        truthy r = true ->
        let selected :=
          nth (List.length (heap s0)) (heap s2) empty_object in
        exists x,
          run bb s =
          uncaught (in_user (call_value (handler c) [x; value bb])) s2
          /\ (own selected = [] -> x = value bb)
          /\ (own selected <> [] ->
               has_property selected anonymousSelectKey = true ->
               x = get_property selected anonymousSelectKey)
          /\ (own selected <> [] ->
               has_property selected anonymousSelectKey = false ->
               x = to_value selected)
          /\ (forall es,
                selected = store es empty_object ->
                ~ In "__proto__" (map fst es) ->
                (forall a,
                    last_emitted es anonymousSelectKey = Some a -> x = a)
                /\ (last_emitted es anonymousSelectKey = None ->
                     es <> [] -> x = VObj (written es []))
                /\ (es = [] -> x = value bb)).
Proof.
  exists (with_case (List.length (heap s0)) args).
  split; [apply with_unfold|]. split; [reflexivity|].
  intros bb pre post s s1 s2 r Hcases Hpre Ht Hr selected.
  exists (first_argument selected (value bb)). split.
  - rewrite (@run_winner W JSON_stringify ToString bb pre post _ s s1 s2 r
               Hcases Hpre Ht Hr).
    reflexivity.
  - destruct (first_argument_cases selected (value bb)) as (H1 & H2 & H3).
    split; [exact H1|]. split; [exact H2|]. split; [exact H3|].
    intros es -> Hes. apply first_argument_captures. exact Hes.
Qed.

(** C7, as the code has it.  [with] takes a guard only in the form
    [with(pattern, guard, handler)]: three arguments, the second a
    function.  The case then matches exactly when the pattern matches
    and the guard is truthy on the value, and the guard is not called
    when the pattern fails.  In every other form all the arguments
    but the last are patterns and no guard is called: the test is the
    scan of these patterns alone, where a function matches no value
    and is never invoked. *)
Theorem with_guard_second_of_three (b : Builder W)
  (args : list (Pattern W)) (s0 : state W) :
  exists c,
    with_ b args s0 =
    (Ok (builder (value b) (cases b ++ [c])),
     {| user := user s0; heap := heap s0 ++ [empty_object] |})
    /\ (forall p g h v s r es e1,
          args = [p; PFun g; h] ->
          emit p v (user s) = (Ok r, (es, e1)) ->
          let loc := List.length (heap s0) in
          let o := store es (nth loc (heap s) empty_object) in
          (truthy r = true ->
           test c v s =
           match call g [v] e1 with
           | (Ok answer, e2) =>
               (Ok (VBool (truthy answer)),
                {| user := e2; heap := set_nth loc o (heap s) |})
           | (Throw x, e2) =>
               (Throw x, {| user := e2; heap := set_nth loc o (heap s) |})
           end)
          /\ (truthy r = false ->
               test c v s =
               (Ok (VBool false),
                {| user := e1; heap := set_nth loc o (heap s) |})))
    /\ (guard_form args = false ->
         forall v s,
           test c v s =
           in_cell (List.length (heap s0))
             (a <- some (firstn (List.length args - 1) args)
                     (fun p _ => matchPattern p v assign) ;;
              ret (VBool a)) s)
    /\ (forall (g : func W) v (St : Type) (sel : selector St) st,
          matchPattern (PFun g) v sel st = (Ok (VBool false), st)).
Proof.
  exists (with_case (List.length (heap s0)) args).
  split; [apply with_unfold|]. split; [|split].
  - intros p g h v s r es e1 -> Hp loc o. simpl.
    unfold with_patterns, with_predicates. simpl.
    split; intros Hr; rewrite doesMatch_unfold; unfold some; simpl;
      unfold bind; rewrite matchPattern_assign, Hp, Hr; fold loc; fold o.
    + unfold every. simpl. unfold bind.
      destruct (call g [v] e1) as [[answer|x] e2]; [|reflexivity].
      destruct (truthy answer); reflexivity.
    + reflexivity.
  - intros Hform v s. simpl. unfold with_patterns, with_predicates.
    rewrite Hform. rewrite doesMatch_unfold. unfold in_cell, bind.
    destruct (some _ _ _) as [[[|]|x] [o e1]]; reflexivity.
  - intros g v St sel st. reflexivity.
Qed.

(** C9.  [with] and [when] return a builder bound to the same value
    whose cases are those of [b] followed by one new case; [b] is not
    modified, the [selected] objects of its cases are left as they
    were, and two extensions of [b] share nothing but the cases of
    [b]. *)
Theorem with_when_append_one_case (b : Builder W) (s : state W) :
  (forall args,
      exists c s',
        with_ b args s = (Ok (builder (value b) (cases b ++ [c])), s')
        /\ forall loc,
            loc < List.length (heap s) ->
            nth loc (heap s') empty_object
            = nth loc (heap s) empty_object)
  /\ (forall predicate handler,
        exists c,
          when b predicate handler s
          = (Ok (builder (value b) (cases b ++ [c])), s))
  /\ (forall args args' s1 s2 b1 b2 s1' s2',
        with_ b args s1 = (Ok b1, s1') ->
        with_ b args' s2 = (Ok b2, s2') ->
        firstn (List.length (cases b)) (cases b1) = cases b
        /\ firstn (List.length (cases b)) (cases b2) = cases b
        /\ List.length (cases b1) = S (List.length (cases b))
        /\ List.length (cases b2) = S (List.length (cases b))).
Proof.
  split; [|split].
  - intros args. eexists. eexists. split; [apply with_unfold|].
    intros loc Hloc. simpl. apply app_nth1. exact Hloc.
  - intros predicate handler. eexists. reflexivity.
  - intros args args' s1 s2 b1 b2 s1' s2' H1 H2.
    rewrite with_unfold in H1, H2. inversion H1; inversion H2; subst.
    simpl. rewrite !firstn_app, !Nat.sub_diag, !firstn_all. simpl.
    rewrite !app_nil_r, !length_app. simpl. repeat split; lia.
Qed.

(** C10.  [with] and [when] run no user function and no pattern test:
    they return normally, the world and the trace of calls are
    unchanged, [when] leaves the whole state as it is, and [with] only
    adds the empty [selected] object of the new case. *)
Theorem accumulation_runs_nothing (b : Builder W) (s : state W) :
  (forall args,
      exists b',
        with_ b args s
        = (Ok b', {| user := user s; heap := heap s ++ [empty_object] |}))
  /\ (forall predicate handler,
        exists b', when b predicate handler s = (Ok b', s))
  /\ (forall args,
        calls (user (snd (with_ b args s))) = calls (user s)
        /\ world (user (snd (with_ b args s))) = world (user s))
  /\ (forall predicate handler,
        calls (user (snd (when b predicate handler s))) = calls (user s)
        /\ world (user (snd (when b predicate handler s)))
            = world (user s)).
Proof.
  split; [|split; [|split]].
  - intros args. eexists. apply with_unfold.
  - intros predicate handler. eexists. reflexivity.
  - intros args. rewrite with_unfold. split; reflexivity.
  - intros predicate handler. split; reflexivity.
Qed.
End WithCases.

(** ** The combinators [union] and [array] *)

Lemma last_emitted_app (es es' : list (string * Value)) (k : string) :
  last_emitted (es ++ es') k
  = match last_emitted es' k with
    | Some x => Some x
    | None => last_emitted es k
    end.
Proof.
  unfold last_emitted at 1. rewrite fold_left_app. apply last_emitted_from.
Qed.

Lemma existsb_eqb_In (keys : list string) (k : string) :
  In k keys -> existsb (fun key => key =? k) keys = true.
Proof.
  intros H. apply existsb_exists. exists k. split; [exact H|].
  apply String.eqb_refl.
Qed.

(** The selector of [array] takes captures whose keys name no member
    of [Object.prototype] without throwing. *)
Lemma replay_array_selector (es : list (string * Value)) :
  forall o : record,
    no_inherited (map fst es) ->
    replay array_selector es o = (Ok tt, collected es o).
Proof.
  induction es as [|[k x] es IH]; intros o H; [reflexivity|].
  unfold replay in *. simpl. unfold bind, array_selector at 1.
  rewrite (H k) by (left; reflexivity). rewrite andb_false_r.
  apply IH. intros key Hkey. apply H. right. exact Hkey.
Qed.

(** It throws a type error on a key that names one, unless the object
    owns the key. *)
Lemma array_selector_inherited (key : string) (v : Value) (o : record) :
  inherited key = true ->
  obj_has o key = false ->
  array_selector key v o = (Throw TypeError, o).
Proof.
  intros Hk Ho. unfold array_selector. rewrite Hk, Ho. reflexivity.
Qed.

(** Under [array_selector] a key holds the values emitted for it, in
    order. *)
Lemma obj_get_collected (es : list (string * Value)) (k : string) :
  forall (o : record),
    (forall l, obj_get o k = VArr l ->
               obj_get (collected es o) k = VArr (l ++ emitted_for es k))
    /\ (obj_get o k = VUndefined ->
         obj_get (collected es o) k
         = match emitted_for es k with
           | [] => VUndefined
           | x :: xs => VArr (x :: xs)
           end).
Proof.
  induction es as [|[k0 x] es IH]; intros o.
  - split; [intros l H|intros H]; simpl; rewrite H.
    + rewrite app_nil_r. reflexivity.
    + reflexivity.
  - set (step := obj_set o k0
                   (concat1 (if truthy (obj_get o k0)
                             then obj_get o k0 else VArr []) x)).
    change (collected ((k0, x) :: es) o) with (collected es step).
    destruct (IH step) as [IHa IHu].
    assert (Hstep : obj_get step k
                    = if k0 =? k
                      then concat1 (if truthy (obj_get o k0)
                                    then obj_get o k0 else VArr []) x
                      else obj_get o k).
    { unfold step. apply obj_get_set. }
    rewrite Hstep in IHa, IHu.
    unfold emitted_for in *. simpl.
    destruct (k0 =? k) eqn:E.
    + apply String.eqb_eq in E. subst k0. simpl. split.
      * intros l H. rewrite (IHa (l ++ [x])).
        -- rewrite <- app_assoc. reflexivity.
        -- rewrite H. reflexivity.
      * intros H. rewrite (IHa [x]).
        -- reflexivity.
        -- rewrite H. reflexivity.
    + split.
      * intros l H. apply IHa. exact H.
      * intros H. apply IHu. exact H.
Qed.

Section CombinatorFacts.
Variable W : Type.
Variable anonymousSelectKey : string.

Local Abbreviation select := (P.select (W := W) anonymousSelectKey).

(** What [union] returns, whatever the keys: the selections are what
    the seeding and the captures of the tested branches leave as own
    properties of its object. *)
Lemma union_unfold (patterns : list (Pattern W)) (v : Value) (e : env W) :
  matcher_match (P.union patterns) v e =
  match some patterns (fun p _ => matchPattern p v assign)
          (store (seeds (flatMap patterns getSelectionKeys)) empty_object,
           e) with
  | (Ok a, (o, e1)) =>
      (Ok {| matched := VBool a; selections := Some (own o) |}, e1)
  | (Throw x, (_, e1)) => (Throw x, e1)
  end.
Proof.
  simpl. unfold bind, scoped, on_fst. simpl.
  rewrite forEach_key_assign.
  destruct (some patterns _ _) as [[a|x] [o e1]]; reflexivity.
Qed.

(** [union] tests the listed patterns in order and matches exactly
    when one of them does.  Its selections are what its object owns
    after the selection keys of all listed patterns were seeded with
    [undefined] and the captures emitted by the branches tested up to
    and including the first that matches were assigned.  So every
    declared key other than [__proto__] is present, such a key holds
    the capture of the winning branch if it made one, and [undefined]
    if no tested branch emitted it.  A failed branch that is not an
    object or tuple shape emits nothing. *)
Theorem union_tests_in_order (patterns : list (Pattern W))
  (v : Value) (e : env W) :
  let keys := flatMap patterns getSelectionKeys in
  let seeded := store (seeds keys) empty_object in
  (forall pre p post es_pre e1 r es e2,
      patterns = pre ++ p :: post ->
      tried v pre e es_pre e1 ->
      emit p v e1 = (Ok r, (es, e2)) ->
      truthy r = true ->
      let sels := own (store (es_pre ++ es) seeded) in
      matcher_match (P.union patterns) v e
      = (Ok {| matched := VBool true; selections := Some sels |}, e2)
      /\ (forall key,
            key <> "__proto__" ->
            (In key keys -> obj_has sels key = true)
            /\ (forall x,
                  last_emitted es key = Some x -> obj_get sels key = x)
            /\ (~ In key (map fst (es_pre ++ es)) ->
                 obj_get sels key = VUndefined))
      /\ (forallb (fun q => negb (is_shape q)) pre = true ->
           es_pre = []))
  /\ (forall es e1,
        tried v patterns e es e1 ->
        matcher_match (P.union patterns) v e
        = (Ok {| matched := VBool false;
                 selections := Some (own (store es seeded)) |}, e1))
  /\ (forall res e',
        matcher_match (P.union patterns) v e = (Ok res, e') ->
        if truthy (matched res) then
          exists pre p post es_pre e1 r es,
            patterns = pre ++ p :: post
            /\ tried v pre e es_pre e1
            /\ emit p v e1 = (Ok r, (es, e'))
            /\ truthy r = true
        else exists es, tried v patterns e es e').
Proof.
  intros keys seeded. split; [|split].
  - intros pre p post es_pre e1 r es e2 -> Hpre Hp Hr sels.
    split; [|split].
    + rewrite union_unfold. unfold some. fold keys. fold seeded.
      rewrite some_first
        with (e1 := e1) (e2 := e2) (es_pre := es_pre) (es := es) (r := r);
        auto.
    + intros key Hkey. unfold sels, seeded. split; [|split].
      * intros Hin. rewrite !obj_has_store by exact Hkey.
        rewrite existsb_seeds, (existsb_eqb_In _ _ Hin). reflexivity.
      * intros x Hx. rewrite obj_get_store by exact Hkey.
        rewrite last_emitted_app, Hx. reflexivity.
      * intros Hnot. rewrite !obj_get_store by exact Hkey.
        rewrite (last_emitted_none _ _ Hnot), last_emitted_seeds.
        destruct (existsb _ keys); reflexivity.
    + intros Hall. exact (tried_not_shapes Hpre Hall).
  - intros es e1 Htried. rewrite union_unfold. unfold some.
    fold keys. fold seeded.
    rewrite some_tried with (es := es) (e1 := e1); auto.
  - intros res e' H. rewrite union_unfold in H. unfold some in H.
    fold keys in H. fold seeded in H.
    destruct (some_from _ 0 patterns (seeded, e)) as [[a|x] [o e1]] eqn:Hs;
      [|discriminate].
    inversion H; subst. simpl.
    apply some_inv in Hs. exact Hs.
Qed.

Lemma every_all_matched {St : Type} (sub : Pattern W) (sel : selector St)
  (vs : list Value) (e e' : env W) (es : list (string * Value)) :
  all_matched sub vs e es e' ->
  forall i o o',
    replay sel es o = (Ok tt, o') ->
    every_from (fun v (_ : nat) => matchPattern sub v sel) i vs (o, e)
    = (Ok true, (o', e')).
Proof.
  induction 1 as [e|v vs e r es e1 es' e2 Hv Hr _ IH]; intros i o o' Hrep;
    simpl.
  - simpl in Hrep. inversion Hrep; subst. reflexivity.
  - apply replay_app_ok in Hrep. destruct Hrep as [o1 [H1 H2]].
    unfold bind.
    rewrite (@matchPattern_emit W St sub v sel o o1 e e1 (Ok r) es Hv H1), Hr.
    apply IH. exact H2.
Qed.

(** [array]: an array all of whose elements match does, and when the
    keys the elements emit name no member of [Object.prototype], each
    key holds the values the elements emitted for it, in element
    order. *)
Lemma array_selections (sub : Pattern W) (vs : list Value) (e e' : env W)
  (es : list (string * Value)) :
  all_matched sub vs e es e' ->
  no_inherited (map fst es) ->
  let sels := collected es [] in
  matcher_match (P.array sub) (VArr vs) e
  = (Ok {| matched := VBool true; selections := Some sels |}, e')
  /\ forall key x xs,
      emitted_for es key = x :: xs -> obj_get sels key = VArr (x :: xs).
Proof.
  intros H Hkeys sels. split.
  - simpl. unfold bind, scoped, every.
    rewrite every_all_matched with (es := es) (e' := e') (o' := sels); auto.
    apply replay_array_selector. exact Hkeys.
  - intros key x xs Hk. unfold sels.
    destruct (obj_get_collected es key []) as [_ Hu].
    rewrite Hu, Hk; reflexivity.
Qed.

Lemma all_matched_select (key : option string) (vs : list Value)
  (e : env W) :
  all_matched (select key) vs e
    (map (fun v => (match key with
                    | Some k => k
                    | None => anonymousSelectKey
                    end, v)) vs) e.
Proof.
  induction vs as [|v vs IH]; simpl.
  - constructor.
  - apply (@all_matched_cons W (select key) v vs e (VBool true)
             [(match key with
               | Some k => k
               | None => anonymousSelectKey
               end, v)] e _ e); auto.
    unfold emit. simpl. unfold bind, on_snd, on_fst. simpl.
    rewrite String.eqb_refl. reflexivity.
Qed.

Lemma collected_key (k : string) (l : list Value) :
  forall acc,
    collected (map (fun v => (k, v)) l) [(k, VArr acc)]
    = [(k, VArr (acc ++ l))].
Proof.
  induction l as [|v l IH]; intros acc.
  - simpl. rewrite app_nil_r. reflexivity.
  - change (collected (map (fun x => (k, x)) (v :: l)) [(k, VArr acc)])
      with (collected (map (fun x => (k, x)) l)
              (obj_set [(k, VArr acc)] k
                 (concat1 (if truthy (obj_get [(k, VArr acc)] k)
                           then obj_get [(k, VArr acc)] k
                           else VArr []) v))).
    simpl obj_get. rewrite String.eqb_refl. simpl concat1.
    rewrite obj_set_single, IH, <- app_assoc. reflexivity.
Qed.

(** [array(select(key))] against a non-empty array binds the key to
    the elements, in order, when the key names no member of
    [Object.prototype]. *)
Lemma array_select_elements (key : option string) (v : Value)
  (vs : list Value) (e : env W) :
  let k := match key with Some k => k | None => anonymousSelectKey end in
  inherited k = false ->
  matcher_match (P.array (select key)) (VArr (v :: vs)) e
  = (Ok {| matched := VBool true;
           selections := Some [(k, VArr (v :: vs))] |}, e).
Proof.
  intros k Hk.
  destruct (@array_selections (select key) (v :: vs) e e _
              (all_matched_select key (v :: vs) e))
    as [H _].
  { intros key0 Hin. rewrite map_map in Hin.
    apply in_map_iff in Hin. destruct Hin as [x [<- _]]. exact Hk. }
  rewrite H. fold k. do 3 f_equal.
  change (collected (map (fun x => (k, x)) (v :: vs)) [])
    with (collected (map (fun x => (k, x)) vs)
            (obj_set [] k (VArr [v]))).
  rewrite obj_set_nil, (collected_key k vs [v]). reflexivity.
Qed.

(** It throws a type error when the key names one. *)
Lemma array_select_inherited (key : option string) (v : Value)
  (vs : list Value) (e : env W) :
  let k := match key with Some k => k | None => anonymousSelectKey end in
  inherited k = true ->
  matcher_match (P.array (select key)) (VArr (v :: vs)) e
  = (Throw TypeError, e).
Proof.
  intros k Hk. simpl. unfold bind, scoped, every. simpl.
  unfold bind, on_snd, on_fst, forward. simpl. fold k.
  rewrite String.eqb_refl. unfold bind.
  rewrite array_selector_inherited by (auto). reflexivity.
Qed.

(** C6, on the empty array.  [array(subpattern)] matches the empty
    array with no selection at all: a key the sub-pattern declares,
    such as the anonymous key of [select()], is absent rather than
    bound to the empty sequence. *)
Theorem array_empty_binds_no_key (sub : Pattern W) (e : env W) :
  matcher_match (P.array sub) (VArr []) e
  = (Ok {| matched := VBool true; selections := Some [] |}, e)
  /\ getSelectionKeys (P.array (select None)) = [anonymousSelectKey]
  /\ obj_has [] anonymousSelectKey = false
  /\ obj_get [] anonymousSelectKey <> VArr [].
Proof.
  repeat split. simpl. discriminate.
Qed.
End CombinatorFacts.

(** ** Captures come under declared keys *)

Lemma obj_has_In (o : record) (k : string) :
  obj_has o k = true <-> In k (Object_keys o).
Proof.
  unfold Object_keys. induction o as [|[k0 x] o IH]; simpl.
  - split; [discriminate|contradiction].
  - rewrite orb_true_iff, IH, String.eqb_eq. reflexivity.
Qed.

Lemma existsb_key_In (es : list (string * Value)) (k : string) :
  existsb (fun kv => fst kv =? k) es = true <-> In k (map fst es).
Proof.
  induction es as [|[k0 x] es IH]; simpl.
  - split; [discriminate|contradiction].
  - rewrite orb_true_iff, IH, String.eqb_eq. reflexivity.
Qed.

Lemma In_flatMap {A B : Type} (f : A -> list B) (xs : list A) (k : B) :
  In k (flatMap xs f) <-> exists x, In x xs /\ In k (f x).
Proof.
  unfold flatMap.
  assert (H : forall acc,
             In k (fold_left (fun acc p => acc ++ f p) xs acc)
             <-> In k acc \/ exists x, In x xs /\ In k (f x)).
  { induction xs as [|x xs IH]; intros acc; simpl.
    - split; [auto|]. intros [Hk|(x & [] & _)]. exact Hk.
    - rewrite IH, in_app_iff. split.
      + intros [[Hk|Hk]|(y & Hy & Hk)]; eauto.
      + intros [Hk|(y & [->|Hy] & Hk)]; eauto. }
  rewrite H. simpl. split; [intros [[]|Hk]; exact Hk|auto].
Qed.

(** The keys an object owns after [assign] or the selector of [array]
    wrote to it are those it had and those emitted. *)
Lemma keys_set_property (o : object) (key : string) (v : Value)
  (k : string) :
  In k (Object_keys (own (set_property o key v))) ->
  In k (Object_keys (own o)) \/ k = key.
Proof.
  unfold set_property.
  destruct ((key =? "__proto__") && negb (obj_has (own o) key)
            && match proto o with
               | None => true
               | Some p => reaches_proto_accessor p
               end).
  - destruct (is_object_or_null v); simpl; auto.
  - simpl. intros H. apply obj_has_In in H. rewrite obj_has_set in H.
    apply orb_true_iff in H. destruct H as [H|H].
    + right. apply String.eqb_eq in H. auto.
    + left. apply obj_has_In. exact H.
Qed.

Lemma keys_store (es : list (string * Value)) :
  forall (o : object) (k : string),
    In k (Object_keys (own (store es o))) ->
    In k (Object_keys (own o)) \/ In k (map fst es).
Proof.
  induction es as [|[k0 x] es IH]; intros o k H.
  - left. exact H.
  - change (store ((k0, x) :: es) o)
      with (store es (set_property o k0 x)) in H.
    apply IH in H. destruct H as [H|H]; [|right; right; exact H].
    apply keys_set_property in H. destruct H as [H|H]; [left; exact H|].
    right. left. auto.
Qed.

Lemma keys_collected (es : list (string * Value)) :
  forall (o : record) (k : string),
    In k (Object_keys (collected es o)) ->
    In k (Object_keys o) \/ In k (map fst es).
Proof.
  induction es as [|[k0 x] es IH]; intros o k H.
  - left. exact H.
  - set (step := obj_set o k0
                   (concat1 (if truthy (obj_get o k0)
                             then obj_get o k0 else VArr []) x)).
    change (collected ((k0, x) :: es) o) with (collected es step) in H.
    apply IH in H. destruct H as [H|H]; [|right; right; exact H].
    apply obj_has_In in H. unfold step in H.
    rewrite obj_has_set in H. apply orb_true_iff in H.
    destruct H as [H|H].
    + right. left. apply String.eqb_eq. exact H.
    + left. apply obj_has_In. exact H.
Qed.

(** What the selector of [array] leaves when it took all captures. *)
Lemma replay_array_selector_ok (es : list (string * Value)) :
  forall o o' : record,
    replay array_selector es o = (Ok tt, o') -> o' = collected es o.
Proof.
  induction es as [|[k x] es IH]; intros o o' H.
  - inversion H. reflexivity.
  - unfold replay in *. simpl in H. unfold bind, array_selector at 1 in H.
    destruct (negb (obj_has o k) && inherited k); [discriminate|].
    apply IH in H. exact H.
Qed.

Section DeclaredKeys.
Variable W : Type.
Variable anonymousSelectKey : string.

Local Abbreviation combined := (combined anonymousSelectKey).
Local Abbreviation combined_list := (combined_list anonymousSelectKey).
Local Abbreviation combined_fields := (combined_fields anonymousSelectKey).
Local Abbreviation emits_declared_keys := (@emits_declared_keys W).

(** What a list of sub-patterns emits to [log], on top of what was
    there, comes from one of them. *)
Lemma every_log_keys {A : Type} (pat : A -> Pattern W)
  (val : A -> nat -> Value) (xs : list A) :
  Forall (fun x => emits_declared_keys (pat x)) xs ->
  forall i l e r l' e',
    every_from (fun x i => matchPattern (pat x) (val x i) log) i xs (l, e)
    = (r, (l', e')) ->
    exists es,
      l' = l ++ es
      /\ forall key,
          In key (map fst es) ->
          exists x, In x xs /\ In key (getSelectionKeys (pat x)).
Proof.
  induction 1 as [|x xs Hx _ IH]; intros i l e r l' e' H; simpl in H.
  - inversion H; subst. exists []. split; [symmetry; apply app_nil_r|].
    intros key [].
  - unfold bind in H. rewrite matchPattern_log in H.
    destruct (emit (pat x) (val x i) e) as [a [es e1]] eqn:Hemit.
    assert (Hkeys := Hx _ _ _ _ _ Hemit).
    destruct a as [a|ex].
    + destruct (truthy a).
      * apply IH in H. destruct H as (es' & -> & Hes').
        exists (es ++ es'). split; [rewrite app_assoc; reflexivity|].
        intros key Hkey. rewrite map_app, in_app_iff in Hkey.
        destruct Hkey as [Hkey|Hkey].
        -- exists x. split; [left; reflexivity|auto].
        -- destruct (Hes' key Hkey) as (y & Hy & Hk).
           exists y. split; [right; exact Hy|exact Hk].
      * inversion H; subst. exists es. split; [reflexivity|].
        intros key Hkey. exists x. split; [left; reflexivity|auto].
    + inversion H; subst. exists es. split; [reflexivity|].
      intros key Hkey. exists x. split; [left; reflexivity|auto].
Qed.

(** What a matcher emits are the keys of the selections it reports. *)
Lemma matcher_emits_declared (m : matcher W) :
  (forall v e res e' sels,
      m_match m v e = (Ok res, e') ->
      selections res = Some sels ->
      forall key,
        In key (Object_keys sels) -> In key (getSelectionKeys (PMatcher m))) ->
  emits_declared_keys (PMatcher m).
Proof.
  intros Hm v e r es e' H key Hkey.
  unfold emit in H. simpl in H. unfold bind, on_snd in H. simpl in H.
  destruct (m_match m v e) as [[res|x] e1] eqn:Hmatch.
  - destruct (truthy (matched res)).
    + destruct (selections res) as [sels|] eqn:Hsels; simpl in H.
      * unfold on_fst in H. simpl in H. rewrite forward_log in H.
        simpl in H. inversion H; subst.
        rewrite map_map in Hkey. simpl in Hkey. rewrite map_id in Hkey.
        exact (Hm _ _ _ _ _ Hmatch Hsels key Hkey).
      * inversion H; subst. destruct Hkey.
    + simpl in H. inversion H; subst. destruct Hkey.
  - inversion H; subst. destruct Hkey.
Qed.

(** The same, for a scan that returned after writing through any
    selector. *)
Lemma every_keys {St A : Type} (pat : A -> Pattern W)
  (val : A -> nat -> Value) (xs : list A) (sel : selector St) :
  Forall (fun x => emits_declared_keys (pat x)) xs ->
  forall i o e (b : bool) o' e',
    every_from (fun x i => matchPattern (pat x) (val x i) sel) i xs (o, e)
    = (Ok b, (o', e')) ->
    exists es,
      replay sel es o = (Ok tt, o')
      /\ forall key,
          In key (map fst es) ->
          exists x, In x xs /\ In key (getSelectionKeys (pat x)).
Proof.
  induction 1 as [|x xs Hx _ IH]; intros i o e b o' e' H; simpl in H.
  - inversion H; subst. exists []. split; [reflexivity|]. intros key [].
  - unfold bind in H.
    destruct (matchPattern (pat x) (val x i) sel (o, e))
      as [[a|ex] [o1 e1]] eqn:Hm; [|discriminate].
    apply matchPattern_returned in Hm. destruct Hm as (es & Hemit & Hrep).
    assert (Hkeys := Hx _ _ _ _ _ Hemit).
    destruct (truthy a).
    + apply IH in H. destruct H as (es' & Hrep' & Hes').
      exists (es ++ es'). split.
      * rewrite replay_app, Hrep. exact Hrep'.
      * intros key Hkey. rewrite map_app, in_app_iff in Hkey.
        destruct Hkey as [Hkey|Hkey].
        -- exists x. split; [left; reflexivity|auto].
        -- destruct (Hes' key Hkey) as (y & Hy & Hk).
           exists y. split; [right; exact Hy|exact Hk].
    + inversion H; subst. exists es. split; [exact Hrep|].
      intros key Hkey. exists x. split; [left; reflexivity|auto].
Qed.

Lemma some_keys {St A : Type} (pat : A -> Pattern W)
  (val : A -> nat -> Value) (xs : list A) (sel : selector St) :
  Forall (fun x => emits_declared_keys (pat x)) xs ->
  forall i o e (b : bool) o' e',
    some_from (fun x i => matchPattern (pat x) (val x i) sel) i xs (o, e)
    = (Ok b, (o', e')) ->
    exists es,
      replay sel es o = (Ok tt, o')
      /\ forall key,
          In key (map fst es) ->
          exists x, In x xs /\ In key (getSelectionKeys (pat x)).
Proof.
  induction 1 as [|x xs Hx _ IH]; intros i o e b o' e' H; simpl in H.
  - inversion H; subst. exists []. split; [reflexivity|]. intros key [].
  - unfold bind in H.
    destruct (matchPattern (pat x) (val x i) sel (o, e))
      as [[a|ex] [o1 e1]] eqn:Hm; [|discriminate].
    apply matchPattern_returned in Hm. destruct Hm as (es & Hemit & Hrep).
    assert (Hkeys := Hx _ _ _ _ _ Hemit).
    destruct (truthy a).
    + inversion H; subst. exists es. split; [exact Hrep|].
      intros key Hkey. exists x. split; [left; reflexivity|auto].
    + apply IH in H. destruct H as (es' & Hrep' & Hes').
      exists (es ++ es'). split.
      * rewrite replay_app, Hrep. exact Hrep'.
      * intros key Hkey. rewrite map_app, in_app_iff in Hkey.
        destruct Hkey as [Hkey|Hkey].
        -- exists x. split; [left; reflexivity|auto].
        -- destruct (Hes' key Hkey) as (y & Hy & Hk).
           exists y. split; [right; exact Hy|exact Hk].
Qed.

Lemma seeded_keys (keys : list string) (key : string) :
  In key (Object_keys (own (store (seeds keys) empty_object))) ->
  In key keys.
Proof.
  intros H. apply keys_store in H. destruct H as [[]|H].
  unfold seeds in H. rewrite map_map, map_id in H. exact H.
Qed.

(** Naming the outcome of the scan a hypothesis runs. *)
Ltac name_scan H :=
  match type of H with
  | context [every_from ?f ?i ?xs ?st] =>
      destruct (every_from f i xs st) as [[r0|x0] [o0 e0]] eqn:Hscan
  | context [some_from ?f ?i ?xs ?st] =>
      destruct (some_from f i xs st) as [[r0|x0] [o0 e0]] eqn:Hscan
  end.

Lemma combined_emit_declared_keys :
  (forall p, combined p -> emits_declared_keys p)
  /\ (forall ps, combined_list ps -> Forall emits_declared_keys ps)
  /\ (forall fields,
        combined_fields fields ->
        Forall (fun kv => emits_declared_keys (snd kv)) fields).
Proof.
  apply combined_mutind.
  - intros l v e r es e' H key Hkey. inversion H; subst. destruct Hkey.
  - intros f v e r es e' H key Hkey. inversion H; subst. destruct Hkey.
  - intros fields _ IH v e r es e' H key Hkey. unfold emit in H.
    simpl in H. destruct (keyed v); [|inversion H; subst; destruct Hkey].
    unfold bind, every in H.
    match type of H with
    | context [every_from ?f ?i ?xs ?st] =>
        destruct (every_from f i xs st) as [r0 [o0 e0]] eqn:Hscan
    end.
    destruct (@every_log_keys _ (fun kv => snd kv)
                (fun kv (_ : nat) => value_get v (fst kv)) fields
                IH _ _ _ _ _ _ Hscan) as (es1 & Hes & Hes1).
    simpl in Hes. subst o0.
    assert (es = es1) by (destruct r0; inversion H; reflexivity). subst es.
    destruct (Hes1 key Hkey) as (kv & Hin & Hk).
    simpl. apply In_flatMap. exists kv. split; assumption.
  - intros elems _ IH v e r es e' H key Hkey. unfold emit in H.
    simpl in H. destruct v; try (inversion H; subst; destruct Hkey).
    destruct (List.length elems =? List.length elems0)%nat;
      [|inversion H; subst; destruct Hkey].
    unfold bind, every in H.
    match type of H with
    | context [every_from ?f ?i ?xs ?st] =>
        destruct (every_from f i xs st) as [r0 [o0 e0]] eqn:Hscan
    end.
    destruct (@every_log_keys _ (fun q => q)
                (fun (_ : Pattern W) i => nth i elems0 VUndefined) elems
                IH _ _ _ _ _ _ Hscan) as (es1 & Hes & Hes1).
    simpl in Hes. subst o0.
    assert (es = es1) by (destruct r0; inversion H; reflexivity). subst es.
    destruct (Hes1 key Hkey) as (q & Hin & Hk).
    simpl. apply In_flatMap. exists q. split; assumption.
  - intros p _ IH. apply matcher_emits_declared.
    intros v e res e' sels Hm Hsels key Hkey. simpl in *.
    destruct (is_undefined v).
    + unfold bind, scoped, on_fst in Hm. simpl in Hm.
      rewrite forEach_key_assign in Hm.
      inversion Hm; subst. simpl in Hsels. inversion Hsels; subst.
      apply seeded_keys. exact Hkey.
    + unfold bind, scoped in Hm. rewrite matchPattern_assign in Hm.
      destruct (emit p v e) as [[r|x] [es e1]] eqn:Hemit; [|discriminate].
      inversion Hm; subst. simpl in Hsels. inversion Hsels; subst.
      apply keys_store in Hkey. destruct Hkey as [[]|Hkey].
      exact (IH _ _ _ _ _ Hemit key Hkey).
  - intros p _ IH. apply matcher_emits_declared.
    intros v e res e' sels Hm Hsels key Hkey. simpl in *.
    destruct v; try (inversion Hm; subst; discriminate).
    unfold bind, scoped, every in Hm.
    name_scan Hm; [|discriminate].
    destruct (@every_keys _ _ (fun _ : Value => p)
                (fun x (_ : nat) => x) elems array_selector
                (proj2 (Forall_forall _ _) (fun _ _ => IH))
                _ _ _ _ _ _ Hscan) as (es & Hrep & Hes).
    apply replay_array_selector_ok in Hrep. subst o0.
    inversion Hm; subst. simpl in Hsels. inversion Hsels; subst.
    apply keys_collected in Hkey. destruct Hkey as [[]|Hkey].
    destruct (Hes key Hkey) as (_ & _ & Hk). exact Hk.
  - intros ps _ IH. apply matcher_emits_declared.
    intros v e res e' sels Hm Hsels key Hkey. simpl in *.
    unfold bind, scoped, every in Hm.
    name_scan Hm; [|discriminate].
    destruct (@every_keys _ _ (fun q => q) (fun _ (_ : nat) => v) ps assign
                IH _ _ _ _ _ _ Hscan) as (es & Hrep & Hes).
    rewrite replay_assign in Hrep. inversion Hrep; subst o0.
    inversion Hm; subst. simpl in Hsels. inversion Hsels; subst.
    apply keys_store in Hkey. destruct Hkey as [[]|Hkey].
    destruct (Hes key Hkey) as (q & Hin & Hk).
    apply (In_flatMap getSelectionKeys ps key). exists q. split; assumption.
  - intros ps _ IH. apply matcher_emits_declared.
    intros v e res e' sels Hm Hsels key Hkey.
    change (m_match _ v e) with (matcher_match (P.union ps) v e) in Hm.
    rewrite union_unfold in Hm. unfold some in Hm.
    name_scan Hm; [|discriminate].
    destruct (@some_keys _ _ (fun q => q) (fun _ (_ : nat) => v) ps assign
                IH _ _ _ _ _ _ Hscan) as (es & Hrep & Hes).
    rewrite replay_assign in Hrep. inversion Hrep; subst o0.
    inversion Hm; subst. simpl in Hsels. inversion Hsels; subst.
    apply keys_store in Hkey. destruct Hkey as [Hkey|Hkey].
    + apply seeded_keys in Hkey. exact Hkey.
    + destruct (Hes key Hkey) as (q & Hin & Hk).
      apply (In_flatMap getSelectionKeys ps key). exists q.
      split; assumption.
  - intros p _ IH. apply matcher_emits_declared.
    intros v e res e' sels Hm Hsels key Hkey. simpl in *.
    unfold bind, scoped in Hm.
    destruct (matchPattern p v ignore (tt, e)) as [[r|x] [o e0]];
      inversion Hm; subst; discriminate.
  - intros f. apply matcher_emits_declared.
    intros v e res e' sels Hm Hsels key Hkey. simpl in *.
    unfold bind in Hm.
    destruct (call f [v] e) as [[r|x] e0]; inversion Hm; subst; discriminate.
  - intros k. apply matcher_emits_declared.
    intros v e res e' sels Hm Hsels key Hkey. simpl in *.
    inversion Hm; subst. simpl in Hsels. inversion Hsels; subst.
    exact Hkey.
  - constructor.
  - intros p ps _ Hp _ Hps. constructor; assumption.
  - constructor.
  - intros k p fields _ Hp _ Hfields. constructor; assumption.
Qed.

(** A pattern made of literals, shapes and the library's combinators
    emits captures only under the selection keys it declares, whether
    the match succeeds, fails or throws; in particular the selections
    that [optional], [array], [intersection], [union] and [select]
    report only hold keys of their [getSelectionKeys]. *)
Theorem captures_are_declared (p : Pattern W) (v : Value) (e e' : env W)
  (r : result exn Value) (es : list (string * Value)) :
  combined p ->
  emit p v e = (r, (es, e')) ->
  forall key, In key (map fst es) -> In key (getSelectionKeys p).
Proof.
  intros Hp. apply (proj1 combined_emit_declared_keys p Hp).
Qed.
End DeclaredKeys.

(** ** Totality of [matchPattern] on the library's patterns *)

Section Library.
Variable W : Type.
Variable anonymousSelectKey : string.

Local Abbreviation library_pattern := (library_pattern anonymousSelectKey).
Local Abbreviation library_patterns :=
  (library_patterns anonymousSelectKey).
Local Abbreviation library_fields := (library_fields anonymousSelectKey).
Local Abbreviation returns_boolean := (@returns_boolean W).
Local Abbreviation combined := (combined (W := W) anonymousSelectKey).

Lemma every_returns {St A : Type}
  (callback : A -> nat -> M exn (St * env W) Value) (xs : list A) :
  Forall (fun x => forall i st,
              exists (b : bool) st', callback x i st = (Ok (VBool b), st'))
         xs ->
  forall i st, exists b st', every_from callback i xs st = (Ok b, st').
Proof.
  induction 1 as [|x xs Hx _ IH]; intros i st; simpl.
  - eexists. eexists. reflexivity.
  - unfold bind. destruct (Hx i st) as (b & st1 & ->). simpl.
    destruct b; [apply IH|]. eexists. eexists. reflexivity.
Qed.

Lemma some_returns {St A : Type}
  (callback : A -> nat -> M exn (St * env W) Value) (xs : list A) :
  Forall (fun x => forall i st,
              exists (b : bool) st', callback x i st = (Ok (VBool b), st'))
         xs ->
  forall i st, exists b st', some_from callback i xs st = (Ok b, st').
Proof.
  induction 1 as [|x xs Hx _ IH]; intros i st; simpl.
  - eexists. eexists. reflexivity.
  - unfold bind. destruct (Hx i st) as (b & st1 & ->). simpl.
    destruct b; [|apply IH]. eexists. eexists. reflexivity.
Qed.

(** A pattern that returns a boolean does so with the selectors that
    never throw. *)
Lemma returns_with_log (p : Pattern W) :
  returns_boolean p ->
  forall v st, exists (b : bool) st',
      matchPattern p v log st = (Ok (VBool b), st').
Proof.
  intros Hp v [l e]. rewrite matchPattern_log.
  destruct (Hp v e) as (b & es & e' & ->). eexists. eexists. reflexivity.
Qed.

Lemma returns_with_assign (p : Pattern W) :
  returns_boolean p ->
  forall v st, exists (b : bool) st',
      matchPattern p v assign st = (Ok (VBool b), st').
Proof.
  intros Hp v [o e]. rewrite matchPattern_assign.
  destruct (Hp v e) as (b & es & e' & ->). eexists. eexists. reflexivity.
Qed.

(** And with the selector of [array] when no key it declares names a
    member of [Object.prototype]. *)
Lemma returns_with_array_selector (p : Pattern W) :
  returns_boolean p ->
  emits_declared_keys p ->
  no_inherited (getSelectionKeys p) ->
  forall v st, exists (b : bool) st',
      matchPattern p v array_selector st = (Ok (VBool b), st').
Proof.
  intros Hp Hkeys Hplain v [o e].
  destruct (Hp v e) as (b & es & e' & Hemit).
  exists b. eexists.
  apply matchPattern_emit with (es := es); [exact Hemit|].
  apply replay_array_selector. intros key Hkey. apply Hplain.
  exact (Hkeys _ _ _ _ _ Hemit key Hkey).
Qed.

(** A matcher whose [match] reports a boolean makes [matchPattern]
    return that boolean. *)
Lemma matcher_returns (m : matcher W) :
  (forall v e,
      exists (b : bool) sels e',
        m_match m v e
        = (Ok {| matched := VBool b; selections := sels |}, e')) ->
  returns_boolean (PMatcher m).
Proof.
  intros Hm v e. unfold emit. simpl. unfold bind, on_snd. simpl.
  destruct (Hm v e) as (b & sels & e' & ->). simpl.
  destruct b; [destruct sels as [sels|]|]; simpl.
  - unfold on_fst. simpl. rewrite forward_log. simpl.
    eexists. eexists. eexists. reflexivity.
  - eexists. eexists. eexists. reflexivity.
  - eexists. eexists. eexists. reflexivity.
Qed.

(** The patterns of the library are among those whose captures come
    under declared keys. *)
Lemma library_combined :
  (forall p, library_pattern p -> combined p)
  /\ (forall ps,
        library_patterns ps -> combined_list (W := W) anonymousSelectKey ps)
  /\ (forall fields,
        library_fields fields ->
        combined_fields (W := W) anonymousSelectKey fields).
Proof.
  apply library_mutind; intros; constructor; assumption.
Qed.

Lemma library_returns_boolean :
  (forall p, library_pattern p -> returns_boolean p)
  /\ (forall ps, library_patterns ps -> Forall returns_boolean ps)
  /\ (forall fields,
        library_fields fields ->
        Forall (fun kv => returns_boolean (snd kv)) fields).
Proof.
  apply library_mutind.
  - intros l v e. unfold emit. simpl. eexists. eexists. eexists.
    reflexivity.
  - intros f v e. unfold emit. simpl. eexists. eexists. eexists.
    reflexivity.
  - intros fields _ IH v e. unfold emit. simpl.
    destruct (keyed v); [|eexists; eexists; eexists; reflexivity].
    unfold bind, every.
    destruct (@every_returns _ _
                (fun kv (_ : nat) =>
                   matchPattern (snd kv) (value_get v (fst kv)) log)
                fields) with (i := 0) (st := ([] : list (string * Value), e))
      as (b & [l e'] & ->).
    + eapply Forall_impl; [|exact IH]. intros kv H i st0.
      apply returns_with_log. exact H.
    + eexists. eexists. eexists. reflexivity.
  - intros elems _ IH v e. unfold emit. simpl.
    destruct v; try (eexists; eexists; eexists; reflexivity).
    destruct (List.length elems =? List.length elems0)%nat;
      [|eexists; eexists; eexists; reflexivity].
    unfold bind, every.
    destruct (@every_returns _ _
                (fun subPattern i =>
                   matchPattern subPattern (nth i elems0 VUndefined) log)
                elems) with (i := 0) (st := ([] : list (string * Value), e))
      as (b & [l e'] & ->).
    + eapply Forall_impl; [|exact IH]. intros q H i st0.
      apply returns_with_log. exact H.
    + eexists. eexists. eexists. reflexivity.
  - intros p _ IH. apply matcher_returns. intros v e. simpl.
    destruct (is_undefined v).
    + unfold bind, scoped, on_fst. simpl. rewrite forEach_key_assign.
      eexists. eexists. eexists. reflexivity.
    + unfold bind, scoped.
      destruct (returns_with_assign IH v (empty_object, e))
        as (b & [o e'] & ->).
      eexists. eexists. eexists. reflexivity.
  - intros p Hp IH Hplain. apply matcher_returns. intros v e. simpl.
    destruct v; try (eexists; eexists; eexists; reflexivity).
    unfold bind, scoped, every.
    destruct (@every_returns _ _
                (fun x (_ : nat) => matchPattern p x array_selector)
                elems) with (i := 0) (st := ([] : record, e))
      as (b & [o e'] & ->).
    + apply Forall_forall. intros x _ i st0.
      apply returns_with_array_selector; auto.
      apply (proj1 (combined_emit_declared_keys W anonymousSelectKey)).
      apply (proj1 library_combined). exact Hp.
    + eexists. eexists. eexists. reflexivity.
  - intros ps _ IH. apply matcher_returns. intros v e. simpl.
    unfold bind, scoped, every.
    destruct (@every_returns _ _
                (fun q (_ : nat) => matchPattern q v assign)
                ps) with (i := 0) (st := (empty_object, e))
      as (b & [o e'] & ->).
    + eapply Forall_impl; [|exact IH]. intros q H i st0.
      apply returns_with_assign. exact H.
    + eexists. eexists. eexists. reflexivity.
  - intros ps _ IH. apply matcher_returns. intros v e.
    change (m_match _ v e) with (matcher_match (P.union ps) v e).
    rewrite union_unfold. unfold some.
    destruct (@some_returns _ _
                (fun q (_ : nat) => matchPattern q v assign)
                ps) with (i := 0)
      (st := (store (seeds (flatMap ps getSelectionKeys)) empty_object, e))
      as (b & [o e'] & ->).
    + eapply Forall_impl; [|exact IH]. intros q H i st0.
      apply returns_with_assign. exact H.
    + eexists. eexists. eexists. reflexivity.
  - intros p _ IH. apply matcher_returns. intros v e. simpl.
    unfold bind, scoped. rewrite matchPattern_ignore.
    destruct (IH v e) as (b & es & e' & ->).
    eexists. eexists. eexists. reflexivity.
  - intros f Hf. apply matcher_returns. intros v e. simpl.
    unfold bind, call. destruct (Hf [v] (world e)) as (b & w' & ->).
    eexists. eexists. eexists. reflexivity.
  - intros key. apply matcher_returns. intros v e. simpl.
    eexists. eexists. eexists. reflexivity.
  - constructor.
  - intros p ps _ Hp _ Hps. constructor; assumption.
  - constructor.
  - intros k p fields _ Hp _ Hfields. constructor; assumption.
Qed.

(** A selector that never throws takes any list of captures. *)
Lemma replay_total {St : Type} (sel : selector St) :
  (forall key x o, exists o', sel key x o = (Ok tt, o')) ->
  forall es o, exists o', replay sel es o = (Ok tt, o').
Proof.
  intros Hsel. induction es as [|[k x] es IH]; intros o.
  - exists o. reflexivity.
  - unfold replay in *. simpl. unfold bind.
    destruct (Hsel k x o) as [o1 ->]. apply IH.
Qed.

(** C8, as the code has it.  On a pattern made of literals, shapes and
    the library's combinators, whose [when] predicates return booleans
    without throwing and where no selection key of a pattern under
    [array] names a member of [Object.prototype], [matchPattern]
    returns a boolean for every value and every state and never
    throws, with the selectors of the library and with any selector
    that does not throw; a mismatched shape yields [false]. *)
Theorem matchPattern_total_on_library (p : Pattern W) :
  library_pattern p ->
  (forall v e,
      exists (b : bool) es e', emit p v e = (Ok (VBool b), (es, e')))
  /\ (forall v st,
        exists (b : bool) st',
          matchPattern p v assign st = (Ok (VBool b), st'))
  /\ (forall (St : Type) v (st : St * env W),
        exists (b : bool) st',
          matchPattern p v ignore st = (Ok (VBool b), st'))
  /\ (no_inherited (getSelectionKeys p) ->
       forall v st,
         exists (b : bool) st',
           matchPattern p v array_selector st = (Ok (VBool b), st'))
  /\ (forall (St : Type) (sel : selector St),
        (forall key x o, exists o', sel key x o = (Ok tt, o')) ->
        forall v st,
          exists (b : bool) st',
            matchPattern p v sel st = (Ok (VBool b), st'))
  /\ (forall (fields : list (string * Pattern W)) v
        (St : Type) (sel : selector St) st,
        keyed v = false ->
        matchPattern (PObj fields) v sel st = (Ok (VBool false), st))
  /\ (forall (elems : list (Pattern W)) v
        (St : Type) (sel : selector St) st,
        (forall vs, v = VArr vs -> List.length vs <> List.length elems) ->
        matchPattern (PTuple elems) v sel st = (Ok (VBool false), st)).
Proof.
  intros Hp.
  assert (Hret := proj1 library_returns_boolean p Hp).
  assert (Hsel : forall (St : Type) (sel : selector St),
             (forall key x o, exists o', sel key x o = (Ok tt, o')) ->
             forall v st,
               exists (b : bool) st',
                 matchPattern p v sel st = (Ok (VBool b), st')).
  { intros St sel Hsel v [o e].
    destruct (Hret v e) as (b & es & e' & Hemit).
    destruct (replay_total sel Hsel es o) as [o' Hrep].
    exists b. eexists.
    apply matchPattern_emit with (es := es); [exact Hemit|exact Hrep]. }
  split; [exact Hret|]. split; [|split; [|split; [|split; [|split]]]].
  - apply returns_with_assign. exact Hret.
  - intros St. apply Hsel. intros key x o. exists o. reflexivity.
  - intros Hplain. apply returns_with_array_selector; auto.
    apply (proj1 (combined_emit_declared_keys W anonymousSelectKey)).
    apply (proj1 library_combined). exact Hp.
  - exact Hsel.
  - intros fields v St sel st Hv. simpl. rewrite Hv. reflexivity.
  - intros elems v St sel st Hv. destruct v; try reflexivity. simpl.
    destruct (Nat.eqb_spec (List.length elems) (List.length elems0))
      as [E|E]; [|reflexivity].
    exfalso. apply (Hv elems0 eq_refl). symmetry. exact E.
Qed.
End Library.

(** ** The properties on the sample program *)

Import Sample.

Lemma first_match_wins_witness :
  run stringify show (builder (VNum 7) [no; yes; yes]) s0
  = (Ok (VArr [VNum 7; VNum 7]),
     {| user := {| world := 3;
                   calls := [(2, [VNum 7]); (3, [VNum 7]);
                             (1, [VNum 7; VNum 7])] |};
        heap := [] |}).
Proof.
  destruct (@first_match_wins nat stringify show
              (builder (VNum 7) [no; yes; yes]) [no] [yes] yes s0
              {| user := {| world := 1; calls := [(2, [VNum 7])] |};
                 heap := [] |}
              {| user := {| world := 2;
                            calls := [(2, [VNum 7]); (3, [VNum 7])] |};
                 heap := [] |}
              (VBool true)) as [H _].
  - reflexivity.
  - econstructor; [reflexivity|reflexivity|constructor].
  - reflexivity.
  - reflexivity.
  - exact H.
Defined.

Lemma otherwise_never_unhandled_run_when_exhausted_witness :
  run stringify show (builder (VStr "C") [no]) s0
  = (Throw (UnhandledMatchError
              "Pattern matching error: no pattern matches value 'C'"),
     {| user := {| world := 1; calls := [(2, [VStr "C"])] |}; heap := [] |})
  /\ run stringify show (builder (VNum 7) [no]) s0
      = (Throw (UnhandledMatchError
                  "Pattern matching error: no pattern matches value [number]"),
         {| user := {| world := 1; calls := [(2, [VNum 7])] |}; heap := [] |})
  /\ otherwise stringify show (match_ (VNum 7)) echo s0
      = (Ok (VArr [VNum 7; VNum 7]),
         {| user := {| world := 1; calls := [(1, [VNum 7; VNum 7])] |};
            heap := [] |}).
Proof.
  split; [|split].
  - destruct (@otherwise_never_unhandled_run_when_exhausted nat stringify
                show (builder (VStr "C") [no]) s0)
      as (_ & _ & _ & _ & H).
    destruct (H {| user := {| world := 1; calls := [(2, [VStr "C"])] |};
                   heap := [] |}) as [Hsome _].
    + econstructor; [reflexivity|reflexivity|constructor].
    + apply (Hsome (VStr "'C'")). reflexivity.
  - destruct (@otherwise_never_unhandled_run_when_exhausted nat stringify
                show (builder (VNum 7) [no]) s0)
      as (_ & _ & _ & _ & H).
    destruct (H {| user := {| world := 1; calls := [(2, [VNum 7])] |};
                   heap := [] |}) as [_ Hnone].
    + econstructor; [reflexivity|reflexivity|constructor].
    + apply Hnone. reflexivity.
  - destruct (@otherwise_never_unhandled_run_when_exhausted nat stringify
                show (match_ (VNum 7)) s0)
      as (_ & H & _).
    rewrite H. reflexivity.
Defined.

Lemma with_handler_arguments_witness :
  let v := VObj [("a", VNum 1)] in
  let args := [PObj [("a", P.select anon None)]; PFun echo] in
  exists b s1 s2,
    with_ anon (match_ v) args s0 = (Ok b, s1)
    /\ run stringify show b s1 = (Ok (VArr [VNum 1; v]), s2).
Proof.
  intros v args.
  destruct (@with_handler_arguments nat anon stringify show (match_ v) args s0)
    as (c & Hwith & _ & Hrun).
  exists (builder v [c]), {| user := e0; heap := [empty_object] |}.
  rewrite with_unfold in Hwith. inversion Hwith as [Hc]. subst c.
  destruct (Hrun (builder v [with_case anon 0 args]) [] []
              {| user := e0; heap := [empty_object] |}
              {| user := e0; heap := [empty_object] |}
              {| user := e0;
                 heap := [store [(anon, VNum 1)] empty_object] |}
              (VBool true))
    as (x & Hx & _ & _ & _ & Hcaptures).
  - reflexivity.
  - constructor.
  - reflexivity.
  - reflexivity.
  - destruct (Hcaptures [(anon, VNum 1)]) as (Hanon & _ & _).
    + reflexivity.
    + simpl. intros [H|[]]. discriminate H.
    + eexists. split; [reflexivity|].
      rewrite Hx, (Hanon (VNum 1) eq_refl). reflexivity.
Defined.

(** C3 as the specification words it fails when the anonymous key is
    captured together with a named key: the handler receives the
    anonymous capture, not the record of captures. *)
Lemma mixed_captures_counterexample :
  let v := VObj [("a", VNum 1); ("b", VNum 2)] in
  let args :=
    [PObj [("a", P.select anon None); ("b", P.select anon (Some "x"))];
     PFun echo] in
  let selected := [(anon, VNum 1); ("x", VNum 2)] in
  exists b s1 s2,
    with_ anon (match_ v) args s0 = (Ok b, s1)
    /\ run stringify show b s1 = (Ok (VArr [VNum 1; v]), s2)
    /\ nth 0 (heap s2) empty_object = {| own := selected; proto := None |}
    /\ spec_first_argument anon selected v = VObj selected
    /\ VObj selected <> VNum 1.
Proof.
  intros v args selected. eexists. eexists. eexists.
  split; [reflexivity|]. split; [reflexivity|]. split; [reflexivity|].
  split; [reflexivity|discriminate].
Qed.

(** C4, at [match({a: 1, b: "B"}).with({a: select("x"), b: "A"},
    {b: "B"}, handler)].  The first listed pattern captures [1] under
    [x] and then fails, the second matches and captures nothing, and
    the handler receives the record [{x: 1}] of the failed pattern
    instead of the whole value. *)
Theorem failed_pattern_capture_reaches_handler :
  emit captures_then_fails subject e0
  = (Ok (VBool false), ([("x", VNum 1)], e0))
  /\ emit only_b subject e0 = (Ok (VBool true), ([], e0))
  /\ first_argument anon empty_object subject = subject
  /\ exists b s1 s2,
      with_ anon (match_ subject) [captures_then_fails; only_b; PFun echo] s0
      = (Ok b, s1)
      /\ run stringify show b s1
          = (Ok (VArr [VObj [("x", VNum 1)]; subject]), s2)
      /\ nth 0 (heap s2) empty_object
          = {| own := [("x", VNum 1)]; proto := None |}
      /\ VObj [("x", VNum 1)] <> subject.
Proof.
  split; [reflexivity|]. split; [reflexivity|]. split; [reflexivity|].
  eexists. eexists. eexists.
  split; [reflexivity|]. split; [reflexivity|].
  split; [reflexivity|discriminate].
Qed.

(** Union default-fill: [union(intersection(select("x"), "A"), "B")]
    against ["B"] reports [{x: undefined}]. *)
Example union_default_fill :
  matcher_match
    (P.union [P.intersection [P.select anon (Some "x"); PLit (VStr "A")];
              PLit (VStr "B")])
    (VStr "B") e0
  = (Ok {| matched := VBool true; selections := Some [("x", VUndefined)] |},
     e0).
Proof. reflexivity. Qed.

(** C5, at [union({a: select("x"), b: "A"}, {b: "B"})] against
    [{a: 1, b: "B"}].  The first branch captures [1] under [x] and
    then fails, the second matches: the key [x], captured only on the
    branch that was not taken, holds the capture and not
    [undefined]. *)
Theorem union_failed_branch_keeps_capture :
  emit captures_then_fails subject e0
  = (Ok (VBool false), ([("x", VNum 1)], e0))
  /\ emit only_b subject e0 = (Ok (VBool true), ([], e0))
  /\ getSelectionKeys captures_then_fails = ["x"]
  /\ getSelectionKeys only_b = []
  /\ matcher_match (P.union [captures_then_fails; only_b]) subject e0
      = (Ok {| matched := VBool true;
               selections := Some [("x", VNum 1)] |}, e0)
  /\ obj_get [("x", VNum 1)] "x" <> VUndefined.
Proof.
  split; [reflexivity|]. split; [reflexivity|].
  split; [reflexivity|]. split; [reflexivity|].
  split; [reflexivity|discriminate].
Qed.

(** The empty array, end to end: [{ xs: array(select()) }] against
    [{ xs: [] }] hands the handler the whole value, while against
    [{ xs: [5] }] it hands it the sequence. *)
Lemma array_empty_end_to_end :
  let pattern := PObj [("xs", P.array (P.select anon None))] in
  let empty := VObj [("xs", VArr [])] in
  let one := VObj [("xs", VArr [VNum 5])] in
  (exists b s1 s2,
      with_ anon (match_ empty) [pattern; PFun echo] s0 = (Ok b, s1)
      /\ run stringify show b s1 = (Ok (VArr [empty; empty]), s2))
  /\ (exists b s1 s2,
        with_ anon (match_ one) [pattern; PFun echo] s0 = (Ok b, s1)
        /\ run stringify show b s1 = (Ok (VArr [VArr [VNum 5]; one]), s2)).
Proof.
  split; eexists; eexists; eexists; split; reflexivity.
Qed.

Lemma with_guard_second_of_three_witness :
  let args := [PLit (VNum 1); PFun never; PFun echo] in
  exists c,
    with_ anon (match_ (VNum 1)) args s0
    = (Ok (builder (VNum 1) [c]),
       {| user := e0; heap := [empty_object] |})
    /\ test c (VNum 1) {| user := e0; heap := [empty_object] |}
        = (Ok (VBool false),
           {| user := {| world := 1; calls := [(2, [VNum 1])] |};
              heap := [empty_object] |})
    /\ test c (VNum 2) {| user := e0; heap := [empty_object] |}
        = (Ok (VBool false), {| user := e0; heap := [empty_object] |}).
Proof.
  intros args.
  destruct (@with_guard_second_of_three nat anon (match_ (VNum 1)) args s0)
    as (c & Hwith & Hguard & _).
  exists c. split; [exact Hwith|]. split.
  - destruct (Hguard (PLit (VNum 1)) never (PFun echo) (VNum 1)
                {| user := e0; heap := [empty_object] |} (VBool true) [] e0
                eq_refl eq_refl) as [Hyes _].
    rewrite (Hyes eq_refl). reflexivity.
  - destruct (Hguard (PLit (VNum 1)) never (PFun echo) (VNum 2)
                {| user := e0; heap := [empty_object] |} (VBool false) [] e0
                eq_refl eq_refl) as [_ Hno].
    rewrite (Hno eq_refl). reflexivity.
Defined.

(** C7 as the specification words it fails with two leading patterns:
    the function before the handler is not called as a guard, and the
    case matches although it returns [false] on the value. *)
Lemma guard_after_two_patterns_counterexample :
  let args := [PLit (VNum 1); PLit (VNum 2); PFun never; PFun echo] in
  fst (call never [VNum 1] e0) = Ok (VBool false)
  /\ exists b s1 s2,
      with_ anon (match_ (VNum 1)) args s0 = (Ok b, s1)
      /\ run stringify show b s1 = (Ok (VArr [VNum 1; VNum 1]), s2)
      /\ calls (user s2) = [(fid echo, [VNum 1; VNum 1])].
Proof.
  intros args. split; [reflexivity|]. eexists. eexists. eexists.
  split; [reflexivity|]. split; reflexivity.
Qed.

Lemma matchPattern_total_on_library_witness :
  exists (b : bool) st',
    matchPattern
      (P.union [P.when always;
                PObj [("a", P.array (P.select anon (Some "x")))]])
      VNull assign (empty_object, e0)
    = (Ok (VBool b), st').
Proof.
  destruct (@matchPattern_total_on_library nat anon
              (P.union [P.when always;
                        PObj [("a", P.array (P.select anon (Some "x")))]]))
    as (_ & H & _).
  - apply lib_union. apply lib_cons.
    + apply lib_when. intros args w. exists true, (S w). reflexivity.
    + apply lib_cons; [|apply lib_nil].
      apply lib_obj. apply lib_fields_cons; [|apply lib_fields_nil].
      apply lib_array; [apply lib_select|].
      intros key [<-|[]]. reflexivity.
  - apply H.
Defined.

(** C8 as the specification words it fails on a [when] whose predicate
    throws: [matchPattern] throws what the predicate threw. *)
Lemma throwing_predicate_counterexample :
  matchPattern (P.when thrower) VNull assign (empty_object, e0)
  = (Throw (Thrown (VStr "boom")),
     (empty_object, {| world := 1; calls := [(4, [VNull])] |}))
  /\ ~ (forall (p : Pattern nat) v st,
          exists (b : bool) st',
            matchPattern p v assign st = (Ok (VBool b), st')).
Proof.
  split; [reflexivity|].
  intros H.
  destruct (H (P.when thrower) VNull (empty_object, e0)) as (b & st' & Hb).
  discriminate Hb.
Qed.

(** Under [array], a capture whose key names a member of
    [Object.prototype] stops the match with a type error:
    [array(select("toString"))] against [[1]]. *)
Example array_select_toString :
  matchPattern (P.array (P.select anon (Some "toString"))) (VArr [VNum 1])
    assign (empty_object, e0)
  = (Throw TypeError, (empty_object, e0)).
Proof. reflexivity. Qed.

(** A capture under [__proto__] does not become a property of
    [selected]: [with(select("__proto__"), handler)] hands the handler
    the value. *)
Example select_proto_hands_value :
  exists b s1 s2,
    with_ anon (match_ (VNum 5)) [P.select anon (Some "__proto__"); PFun echo]
      s0 = (Ok b, s1)
    /\ run stringify show b s1 = (Ok (VArr [VNum 5; VNum 5]), s2).
Proof. eexists. eexists. eexists. split; reflexivity. Qed.

Lemma with_when_append_one_case_witness :
  (exists c s',
      with_ anon (builder (VNum 1) [no]) [PLit (VNum 1); PFun echo] s0
      = (Ok (builder (VNum 1) [no; c]), s'))
  /\ (exists c,
        when (builder (VNum 1) [no]) always echo s0
        = (Ok (builder (VNum 1) [no; c]), s0)).
Proof.
  destruct (@with_when_append_one_case nat anon (builder (VNum 1) [no]) s0)
    as (Hwith & Hwhen & _).
  split.
  - destruct (Hwith [PLit (VNum 1); PFun echo]) as (c & s' & H & _).
    exists c, s'. exact H.
  - destruct (Hwhen always echo) as (c & H). exists c. exact H.
Defined.

Lemma accumulation_runs_nothing_witness :
  calls (user (snd (with_ anon (match_ (VNum 1))
                      [P.when thrower; PFun thrower; PFun thrower] s0)))
  = []
  /\ calls (user (snd (when (match_ (VNum 1)) thrower thrower s0))) = [].
Proof.
  destruct (@accumulation_runs_nothing nat anon (match_ (VNum 1)) s0)
    as (_ & _ & Hwith & Hwhen).
  split.
  - apply (Hwith [P.when thrower; PFun thrower; PFun thrower]).
  - apply (Hwhen thrower thrower).
Defined.

(** ** The examples of the specification *)

Example letter_b_result : fst (letter_b s0) = Ok (VStr "b").
Proof. reflexivity. Qed.

Example type_x_result : fst (type_x s0) = Ok (VStr "matched").
Proof. reflexivity. Qed.

Example all_positive_result : fst (all_positive s0) = Ok (VStr "all positive").
Proof. reflexivity. Qed.

(** [{ greeting: optional("Hello") }] matches [{}] and
    [{ greeting: "Hello" }], not [{ greeting: "Bye" }]. *)
Example optional_absent :
  let p := PObj [("greeting", P.optional (PLit (VStr "Hello")))] in
  fst (emit p (VObj []) e0) = Ok (VBool true)
  /\ fst (emit p (VObj [("greeting", VStr "Hello")]) e0) = Ok (VBool true)
  /\ fst (emit p (VObj [("greeting", VStr "Bye")]) e0) = Ok (VBool false).
Proof. repeat split. Qed.

(** In an intersection the capture of the later pattern wins. *)
Example intersection_last_capture_wins :
  emit (P.intersection [PObj [("a", P.select anon (Some "x"))];
                        PObj [("b", P.select anon (Some "x"))]])
    (VObj [("a", VNum 1); ("b", VNum 2)]) e0
  = (Ok (VBool true), ([("x", VNum 2)], e0)).
Proof. reflexivity. Qed.

(** [not(select())] captures nothing, and fails since [select()]
    matches. *)
Example not_captures_nothing :
  emit (P.not (P.select anon None)) (VNum 1) e0 = (Ok (VBool false), ([], e0))
  /\ emit (P.not (PLit (VNum 2))) (VNum 1) e0 = (Ok (VBool true), ([], e0)).
Proof. split; reflexivity. Qed.

(** [array(select())] against [[1, 2, 3]]. *)
Example array_select_123 :
  matcher_match (P.array (P.select anon None))
    (VArr [VNum 1; VNum 2; VNum 3]) e0
  = (Ok {| matched := VBool true;
           selections := Some [(anon, VArr [VNum 1; VNum 2; VNum 3])] |}, e0).
Proof. reflexivity. Qed.

(** An empty inner array contributes no entry either:
    [array(array(select()))] against [[[1], []]] binds one sequence for
    two elements. *)
Example array_nested_empty :
  matcher_match (P.array (P.array (P.select anon None)))
    (VArr [VArr [VNum 1]; VArr []]) e0
  = (Ok {| matched := VBool true;
           selections := Some [(anon, VArr [VArr [VNum 1]])] |}, e0).
Proof. reflexivity. Qed.

(** ** Resolution: throwing tests, handlers, [when] and [otherwise] *)

Section ResolutionOutcomes.
Variable W : Type.
Variable JSON_stringify : Value -> option Value.
Variable ToString : Value -> string.

Local Abbreviation run := (run JSON_stringify ToString).
Local Abbreviation exhaustive := (exhaustive JSON_stringify ToString).
Local Abbreviation otherwise := (otherwise JSON_stringify ToString).

(** After cases that all reject the value, the scan goes on with the
    cases that follow. *)
Lemma scan_app_rejected (v : Value) (cs cs' : list (case W))
  (s s' : state W) :
  rejected v cs s s' -> scan v (cs ++ cs') s = scan v cs' s'.
Proof.
  induction 1 as [s|c cs s r s1 s2 Ht Hr _ IH]; [reflexivity|].
  simpl. rewrite scan_cons, Ht, Hr. exact IH.
Qed.

(** A test that throws ends the resolution with what it threw: no
    later case is tested and no handler runs, in [otherwise] too. *)
Theorem throwing_test_ends_resolution (b : Builder W)
  (pre post : list (case W)) (c : case W) (s s1 s2 : state W) (x : exn) :
  cases b = pre ++ c :: post ->
  rejected (value b) pre s s1 ->
  test c (value b) s1 = (Throw x, s2) ->
  run b s = (Throw (Uncaught x), s2)
  /\ exhaustive b s = (Throw (Uncaught x), s2)
  /\ (forall h, otherwise b h s = (Throw (Uncaught x), s2)).
Proof.
  intros Hcases Hpre Ht.
  assert (Hscan : forall tail,
             scan (value b) (pre ++ (c :: post) ++ tail) s = (Throw x, s2)).
  { intros tail. rewrite (scan_app_rejected _ Hpre). simpl.
    rewrite scan_cons, Ht. reflexivity. }
  assert (Hrun : run b s = (Throw (Uncaught x), s2)).
  { rewrite run_unfold, Hcases. specialize (Hscan []).
    rewrite app_nil_r in Hscan. rewrite Hscan. reflexivity. }
  split; [exact Hrun|]. split; [exact Hrun|].
  intros h. unfold otherwise. rewrite run_unfold. simpl.
  rewrite Hcases, <- app_assoc, Hscan. reflexivity.
Qed.

(** What the handler of the winning case does is the result: its
    return value is returned, what it throws is thrown unchanged, and a
    handler that is not a function is a type error raised after the
    case was selected. *)
Theorem winning_handler_outcome (b : Builder W)
  (pre post : list (case W)) (c : case W) (s s1 s2 s3 : state W)
  (r x : Value) :
  cases b = pre ++ c :: post ->
  rejected (value b) pre s s1 ->
  test c (value b) s1 = (Ok r, s2) ->
  truthy r = true ->
  select c (value b) s2 = (Ok x, s3) ->
  (forall f,
      handler c = PFun f ->
      let '(outcome, w) := fbody f [x; value b] (world (user s3)) in
      let s4 :=
        {| user := {| world := w;
                      calls := calls (user s3) ++ [(fid f, [x; value b])] |};
           heap := heap s3 |} in
      run b s =
      (match outcome with
       | Ok a => Ok a
       | Throw e => Throw (Uncaught e)
       end, s4))
  /\ (is_function (handler c) = false ->
       run b s = (Throw (Uncaught TypeError), s3)).
Proof.
  intros Hcases Hpre Ht Hr Hsel.
  assert (Hrun := @run_winner W JSON_stringify ToString b pre post c
                    s s1 s2 r Hcases Hpre Ht Hr).
  split.
  - intros f Hf.
    destruct (fbody f [x; value b] (world (user s3))) as [outcome w] eqn:Hb.
    rewrite Hrun. unfold uncaught, bind. rewrite Hsel, Hf.
    unfold in_user. simpl. unfold call. rewrite Hb.
    destruct outcome; reflexivity.
  - intros Hf. rewrite Hrun. unfold uncaught, bind. rewrite Hsel.
    unfold in_user. destruct (handler c); simpl in *; try discriminate;
      destruct s3; reflexivity.
Qed.

(** [match(v)...when(predicate, handler)] after cases that all reject
    the value: the predicate is called once on the value; when its
    answer is truthy the handler is called with the value as both
    arguments, when it is falsy the resolution raises the unhandled
    error, and what the predicate throws is thrown unchanged. *)
Theorem when_case_resolution (b : Builder W) (predicate handler : func W)
  (s s1 : state W) :
  rejected (value b) (cases b) s s1 ->
  exists b',
    (forall s0, when b predicate handler s0 = (Ok b', s0))
    /\ run b' s =
        match call predicate [value b] (user s1) with
        | (Ok answer, e2) =>
            let s2 := {| user := e2; heap := heap s1 |} in
            if truthy answer
            then uncaught (in_user (call handler [value b; value b])) s2
            else
              (Throw (UnhandledMatchError
                        ("Pattern matching error: no pattern matches value "
                           ++ ToString match JSON_stringify (value b) with
                                       | Some d => d
                                       | None => value b
                                       end)), s2)
        | (Throw x, e2) =>
            (Throw (Uncaught x), {| user := e2; heap := heap s1 |})
        end.
Proof.
  intros Hrej. eexists. split; [intros s0; reflexivity|].
  rewrite run_unfold. simpl. rewrite (scan_app_rejected _ Hrej).
  rewrite scan_cons. simpl. unfold in_user at 1.
  destruct (call predicate [value b] (user s1)) as [[answer|x] e2];
    [|reflexivity].
  destruct (truthy answer); reflexivity.
Qed.

(** [otherwise(handler)] after cases that all reject the value calls
    the handler with the value as both arguments, in the state the
    tests left. *)
Theorem otherwise_after_rejections (b : Builder W) (h : func W)
  (s s1 : state W) :
  rejected (value b) (cases b) s s1 ->
  otherwise b h s
  = uncaught (in_user (call h [value b; value b])) s1.
Proof.
  intros Hrej. unfold otherwise. rewrite run_unfold. simpl.
  rewrite (scan_app_rejected _ Hrej). reflexivity.
Qed.
End ResolutionOutcomes.

(** ** The [selected] object of a [with] case *)

Lemma set_nth_length_app {A : Type} (xs : list A) (x y : A) :
  set_nth (List.length xs) y (xs ++ [x]) = xs ++ [y].
Proof.
  induction xs as [|z xs IH]; simpl; [reflexivity|]. rewrite IH. reflexivity.
Qed.

Lemma set_nth_same {A : Type} (xs : list A) (d : A) :
  forall i, set_nth i (nth i xs d) xs = xs.
Proof.
  induction xs as [|z xs IH]; intros i; destruct i; simpl;
    try reflexivity.
  rewrite IH. reflexivity.
Qed.

Lemma length_set_nth {A : Type} (xs : list A) (x : A) :
  forall i, List.length (set_nth i x xs) = List.length xs.
Proof.
  induction xs as [|z xs IH]; intros i; destruct i; simpl;
    try reflexivity.
  rewrite IH. reflexivity.
Qed.

Lemma nth_set_nth_other {A : Type} (xs : list A) (d x : A) :
  forall i j, i <> j -> nth j (set_nth i x xs) d = nth j xs d.
Proof.
  induction xs as [|z xs IH]; intros i j Hij; destruct i, j; simpl;
    try reflexivity; [contradiction|].
  apply IH. intros E. apply Hij. rewrite E. reflexivity.
Qed.

Section WithOutcomes.
Variable W : Type.
Variable anonymousSelectKey : string.
Variable JSON_stringify : Value -> option Value.
Variable ToString : Value -> string.

Local Abbreviation run := (run JSON_stringify ToString).
Local Abbreviation with_ := (with_ anonymousSelectKey).
Local Abbreviation with_case := (with_case anonymousSelectKey).

Lemma in_cell_heap {A : Type} (loc : nat) (m : M exn (object * env W) A)
  (s : state W) :
  exists o, heap (snd (in_cell loc m s)) = set_nth loc o (heap s).
Proof.
  unfold in_cell. destruct (m _) as [r [o e']]. exists o. reflexivity.
Qed.

(** Two successive [with] calls build cases that share no [selected]
    object: testing one case changes neither the number of these
    objects nor the object of the other case, and selecting changes
    nothing at all. *)
Theorem with_cases_keep_their_own_selected (b : Builder W)
  (args1 args2 : list (Pattern W)) (s0 : state W) :
  exists c1 c2,
    (b1 <- with_ b args1 ;; with_ b1 args2) s0
    = (Ok (builder (value b) (cases b ++ [c1; c2])),
       {| user := user s0;
          heap := heap s0 ++ [empty_object; empty_object] |})
    /\ forall v s,
        let l1 := List.length (heap s0) in
        let l2 := S l1 in
        nth l1 (heap (snd (test c2 v s))) empty_object
        = nth l1 (heap s) empty_object
        /\ nth l2 (heap (snd (test c1 v s))) empty_object
            = nth l2 (heap s) empty_object
        /\ List.length (heap (snd (test c1 v s))) = List.length (heap s)
        /\ List.length (heap (snd (test c2 v s))) = List.length (heap s)
        /\ snd (select c1 v s) = s
        /\ snd (select c2 v s) = s.
Proof.
  exists (with_case (List.length (heap s0)) args1),
    (with_case (S (List.length (heap s0))) args2).
  split.
  - unfold bind. rewrite with_unfold, with_unfold. simpl.
    rewrite length_app, Nat.add_1_r, <- !app_assoc. reflexivity.
  - intros v s l1 l2. simpl.
    destruct (in_cell_heap l2
                (a <- some (with_patterns args2)
                        (fun pattern _ => matchPattern pattern v assign) ;;
                 b0 <- (if a : bool then
                          every (with_predicates args2)
                            (fun predicate _ =>
                               on_snd (call_value predicate [v]))
                        else ret false) ;;
                 ret (VBool b0)) s) as [o2 H2].
    destruct (in_cell_heap l1
                (a <- some (with_patterns args1)
                        (fun pattern _ => matchPattern pattern v assign) ;;
                 b0 <- (if a : bool then
                          every (with_predicates args1)
                            (fun predicate _ =>
                               on_snd (call_value predicate [v]))
                        else ret false) ;;
                 ret (VBool b0)) s) as [o1 H1].
    unfold doesMatch. fold l1. fold l2. rewrite H1, H2.
    rewrite !length_set_nth.
    rewrite !nth_set_nth_other by (unfold l2; lia).
    repeat split.
Qed.

(** [with()] and [with(x)], called with less than a pattern and a
    handler, append a case that matches no value: its test is [false]
    and leaves the state as it is, so its handler never runs. *)
Theorem with_without_pattern_never_matches (b : Builder W)
  (args : list (Pattern W)) (s0 : state W) :
  List.length args <= 1 ->
  exists c,
    with_ b args s0
    = (Ok (builder (value b) (cases b ++ [c])),
       {| user := user s0; heap := heap s0 ++ [empty_object] |})
    /\ forall v s, test c v s = (Ok (VBool false), s).
Proof.
  intros Hlen. exists (with_case (List.length (heap s0)) args).
  split; [apply with_unfold|]. intros v s. simpl.
  assert (Hform : guard_form args = false).
  { unfold guard_form.
    destruct (Nat.eqb_spec (List.length args) 3) as [E|E]; [lia|reflexivity]. }
  unfold with_patterns, with_predicates. rewrite Hform.
  replace (List.length args - 1) with 0 by lia. simpl.
  unfold doesMatch, in_cell, bind, some. simpl.
  rewrite set_nth_same. destruct s; reflexivity.
Qed.

(** Resolution of a builder with one case. *)
Lemma run_one_case (v : Value) (c : case W) (s : state W) :
  run (builder v [c]) s =
  match test c v s with
  | (Ok r, s1) =>
      if truthy r then
        uncaught (x <- select c v ;;
                  in_user (call_value (handler c) [x; v])) s1
      else
        (Throw (UnhandledMatchError
                  ("Pattern matching error: no pattern matches value "
                     ++ ToString match JSON_stringify v with
                                 | Some d => d
                                 | None => v
                                 end)), s1)
  | (Throw x, s1) => (Throw (Uncaught x), s1)
  end.
Proof.
  rewrite run_unfold. cbn [cases value]. rewrite scan_cons.
  destruct (test c v s) as [[r|x] s1]; [|reflexivity].
  destruct (truthy r); reflexivity.
Qed.

(** The test of a case built from one pattern and no guard. *)
Lemma doesMatch_single (loc : nat) (p : Pattern W) (v : Value)
  (s : state W) :
  doesMatch loc [p] [] v s =
  match emit p v (user s) with
  | (Ok r, (es, e1)) =>
      (Ok (VBool (truthy r)),
       {| user := e1;
          heap := set_nth loc (store es (nth loc (heap s) empty_object))
                    (heap s) |})
  | (Throw x, (es, e1)) =>
      (Throw x,
       {| user := e1;
          heap := set_nth loc (store es (nth loc (heap s) empty_object))
                    (heap s) |})
  end.
Proof.
  rewrite doesMatch_unfold. unfold some. cbn [some_from]. unfold bind.
  rewrite matchPattern_assign.
  destruct (emit p v (user s)) as [[r|x] [es e1]]; [|reflexivity].
  destruct (truthy r); reflexivity.
Qed.

(** Resolution of [match(v).with(pattern, handler)] on a new builder. *)
Lemma run_with_one_pattern (v : Value) (p h : Pattern W)
  (s : state W) :
  exists b,
    with_ (match_ v) [p; h] s
    = (Ok b, {| user := user s; heap := heap s ++ [empty_object] |})
    /\ run b {| user := user s; heap := heap s ++ [empty_object] |}
        = match emit p v (user s) with
          | (Ok r, (es, e1)) =>
              let selected := store es empty_object in
              let s1 := {| user := e1; heap := heap s ++ [selected] |} in
              if truthy r then
                uncaught
                  (in_user
                     (call_value h
                        [first_argument anonymousSelectKey selected v; v]))
                  s1
              else
                (Throw (UnhandledMatchError
                          ("Pattern matching error: no pattern matches value "
                             ++ ToString match JSON_stringify v with
                                         | Some d => d
                                         | None => v
                                         end)), s1)
          | (Throw x, (es, e1)) =>
              (Throw (Uncaught x),
               {| user := e1;
                  heap := heap s ++ [store es empty_object] |})
          end.
Proof.
  exists (builder v [with_case (List.length (heap s)) [p; h]]).
  split; [apply with_unfold|].
  rewrite run_one_case. cbn [test with_case].
  unfold with_patterns, with_predicates.
  cbn [guard_form List.length Nat.eqb andb firstn Nat.sub].
  rewrite doesMatch_single. cbn [user heap]. rewrite nth_middle.
  destruct (emit p v (user s)) as [[r|x] [es e1]];
    rewrite set_nth_length_app; [|reflexivity].
  cbn [truthy]. destruct (truthy r); [|reflexivity].
  unfold uncaught, bind. cbn [select handler with_case].
  unfold with_select, gets. cbn [heap]. rewrite nth_middle. reflexivity.
Qed.

(** [match(v).with(pattern, handler).run()] on a new builder: the
    pattern is matched once.  When it fails the value is unhandled.
    When it matches, the handler is called once with the value as
    second argument and, as first argument, what [select] makes of the
    object the captures were assigned to: when no capture was emitted
    under [__proto__], the last capture emitted under the anonymous
    key if there is one, else the record of the captures if there is
    any, else the value. *)
Theorem with_one_pattern_resolution (v : Value) (p h : Pattern W)
  (s : state W) (r : Value) (es : list (string * Value)) (e1 : env W) :
  emit p v (user s) = (Ok r, (es, e1)) ->
  exists b,
    with_ (match_ v) [p; h] s
    = (Ok b, {| user := user s; heap := heap s ++ [empty_object] |})
    /\ let s0 := {| user := user s; heap := heap s ++ [empty_object] |} in
       let selected := store es empty_object in
       let s1 := {| user := e1; heap := heap s ++ [selected] |} in
       (truthy r = false ->
        run b s0 =
        (Throw (UnhandledMatchError
                  ("Pattern matching error: no pattern matches value "
                     ++ ToString match JSON_stringify v with
                                 | Some d => d
                                 | None => v
                                 end)), s1))
       /\ (truthy r = true ->
            exists x,
              run b s0 = uncaught (in_user (call_value h [x; v])) s1
              /\ x = first_argument anonymousSelectKey selected v
              /\ (~ In "__proto__" (map fst es) ->
                   (forall a,
                       last_emitted es anonymousSelectKey = Some a ->
                       x = a)
                   /\ (last_emitted es anonymousSelectKey = None ->
                        es <> [] -> x = VObj (written es []))
                   /\ (es = [] -> x = v))).
Proof.
  intros Hp. destruct (run_with_one_pattern v p h s) as (b & Hwith & Hrun).
  exists b. split; [exact Hwith|]. intros s0 selected s1.
  rewrite Hp in Hrun.
  split; intros Hr; rewrite Hr in Hrun; [exact Hrun|].
  eexists. split; [exact Hrun|]. split; [reflexivity|].
  intros Hes. apply first_argument_captures. exact Hes.
Qed.

(** [select(key)] always matches and emits the value under its key. *)
Lemma emit_select (key : option string) (v : Value) (e : env W) :
  emit (P.select anonymousSelectKey key) v e
  = (Ok (VBool true),
     ([(match key with Some k => k | None => anonymousSelectKey end, v)],
      e)).
Proof.
  unfold emit. simpl. unfold bind, on_snd, on_fst. simpl.
  rewrite String.eqb_refl. reflexivity.
Qed.

(** [when(predicate)] returns what the predicate returns and emits
    nothing. *)
Lemma emit_when (predicate : func W) (v : Value) (e : env W) :
  emit (P.when predicate) v e
  = match call predicate [v] e with
    | (r, e') => (r, ([], e'))
    end.
Proof.
  unfold emit. simpl. unfold bind, on_snd. simpl.
  destruct (call predicate [v] e) as [[r|x] e']; [|reflexivity].
  simpl. destruct (truthy r); reflexivity.
Qed.

(** [match(v).with(select(key), handler)]: the case always matches.
    The handler receives the value itself for [select()], and the
    record [{ key: v }] for a named key; the key [__proto__] is no
    capture for [select], its assignment goes to the prototype of
    [selected], and the handler receives the value.  The second
    argument is the value. *)
Theorem with_select_hands_capture (v : Value) (h : func W)
  (key : option string) (s : state W) :
  let k := match key with Some k => k | None => anonymousSelectKey end in
  exists b,
    with_ (match_ v) [P.select anonymousSelectKey key; PFun h] s
    = (Ok b, {| user := user s; heap := heap s ++ [empty_object] |})
    /\ run b {| user := user s; heap := heap s ++ [empty_object] |}
        = uncaught
            (in_user
               (call h [if (k =? anonymousSelectKey) || (k =? "__proto__")
                        then v
                        else VObj [(k, v)]; v]))
            {| user := user s;
               heap := heap s ++ [set_property empty_object k v] |}.
Proof.
  intros k.
  destruct (run_with_one_pattern v
              (P.select anonymousSelectKey key) (PFun h) s)
    as (b & Hwith & Hrun).
  exists b. split; [exact Hwith|].
  rewrite Hrun, emit_select. fold k. cbn [truthy store fold_left fst snd].
  unfold call_value. do 3 f_equal.
  destruct (k =? "__proto__") eqn:Ep.
  - rewrite orb_true_r. apply String.eqb_eq in Ep. rewrite Ep.
    unfold set_property. simpl.
    destruct (is_object_or_null v); reflexivity.
  - rewrite orb_false_r.
    rewrite set_property_own
      by (intros E; rewrite E, String.eqb_refl in Ep; discriminate).
    simpl own. rewrite obj_set_nil.
    unfold first_argument, has_property, get_property, to_value. simpl.
    rewrite String.eqb_sym, !orb_false_r.
    destruct (anonymousSelectKey =? k); reflexivity.
Qed.

(** [match(v).with(when(predicate), handler)]: the predicate is called
    once on the value; a truthy answer, boolean or not, selects the
    case, whose handler receives the value as both arguments; a falsy
    one leaves the value unhandled; what the predicate throws is
    thrown. *)
Theorem with_when_pattern_resolution (v : Value) (predicate h : func W)
  (s : state W) :
  exists b,
    with_ (match_ v) [P.when predicate; PFun h] s
    = (Ok b, {| user := user s; heap := heap s ++ [empty_object] |})
    /\ run b {| user := user s; heap := heap s ++ [empty_object] |}
        = match call predicate [v] (user s) with
          | (Ok answer, e1) =>
              let s1 :=
                {| user := e1; heap := heap s ++ [empty_object] |} in
              if truthy answer
              then uncaught (in_user (call h [v; v])) s1
              else
                (Throw (UnhandledMatchError
                          ("Pattern matching error: no pattern matches value "
                             ++ ToString match JSON_stringify v with
                                         | Some d => d
                                         | None => v
                                         end)), s1)
          | (Throw x, e1) =>
              (Throw (Uncaught x),
               {| user := e1; heap := heap s ++ [empty_object] |})
          end.
Proof.
  destruct (run_with_one_pattern v (P.when predicate) (PFun h) s)
    as (b & Hwith & Hrun).
  exists b. split; [exact Hwith|].
  rewrite Hrun, emit_when.
  destruct (call predicate [v] (user s)) as [[answer|x] e1]; reflexivity.
Qed.
End WithOutcomes.

(** ** The combinators [optional], [intersection], [not], [array] and
    the wildcards *)

Section CombinatorOutcomes.
Variable W : Type.
Variable anonymousSelectKey : string.

(** All listed patterns match: [every] is true and the object has
    received what they emitted. *)
Lemma every_passed (v : Value) (ps : list (Pattern W))
  (e e1 : env W) (es : list (string * Value)) :
  passed v ps e es e1 ->
  forall i o,
    every_from (fun p (_ : nat) => matchPattern p v assign) i ps (o, e)
    = (Ok true, (store es o, e1)).
Proof.
  induction 1 as [e|p ps e r es e1 es' e2 Hp Hr _ IH]; intros i o; simpl.
  - reflexivity.
  - unfold bind. rewrite matchPattern_assign, Hp, Hr, IH, store_app.
    reflexivity.
Qed.

(** The first listed pattern that fails ends the scan. *)
Lemma every_first_failure (v : Value)
  (pre post : list (Pattern W)) (p : Pattern W) (e e1 e2 : env W)
  (es_pre es : list (string * Value)) (r : Value) :
  passed v pre e es_pre e1 ->
  emit p v e1 = (Ok r, (es, e2)) ->
  truthy r = false ->
  forall i o,
    every_from (fun p (_ : nat) => matchPattern p v assign) i
      (pre ++ p :: post) (o, e)
    = (Ok false, (store (es_pre ++ es) o, e2)).
Proof.
  intros Hpre Hp Hr.
  induction Hpre as [e|q ps e rq esq e1 es' e1' Hq Hrq _ IH];
    intros i o; simpl; unfold bind.
  - rewrite matchPattern_assign, Hp, Hr. reflexivity.
  - rewrite matchPattern_assign, Hq, Hrq, (IH Hp), <- app_assoc.
    rewrite (store_app esq). reflexivity.
Qed.

(** What a scan that returned tells about the listed patterns. *)
Lemma every_inv (v : Value) (ps : list (Pattern W)) :
  forall i o e (b : bool) o' e',
    every_from (fun p (_ : nat) => matchPattern p v assign) i ps (o, e)
    = (Ok b, (o', e')) ->
    if b then exists es, passed v ps e es e'
    else
      exists pre p post es_pre e1 r es,
        ps = pre ++ p :: post
        /\ passed v pre e es_pre e1
        /\ emit p v e1 = (Ok r, (es, e'))
        /\ truthy r = false.
Proof.
  induction ps as [|q ps IH]; intros i o e b o' e' H; simpl in H.
  - inversion H; subst. exists []. constructor.
  - unfold bind in H. rewrite matchPattern_assign in H.
    destruct (emit q v e) as [[r|x] [es e1]] eqn:Hq; [|discriminate].
    destruct (truthy r) eqn:Hr.
    + specialize (IH _ _ _ _ _ _ H). destruct b.
      * destruct IH as [es' Ht]. exists (es ++ es'). econstructor; eauto.
      * destruct IH
          as (pre & p & post & es_pre & e1' & r' & es' & -> & Ht & Hp & Hr').
        exists (q :: pre), p, post, (es ++ es_pre), e1', r', es'.
        repeat split; auto. econstructor; eauto.
    + inversion H; subst.
      exists [], q, ps, [], e, r, es. repeat split; auto. constructor.
Qed.

(** [intersection] tests the listed patterns in order and matches
    exactly when all of them do; it stops at the first that fails.
    When it matches, its selections are what its object owns after
    the captures of all the patterns were assigned: a key other than
    [__proto__] that was captured holds its last capture, and one that
    was not is absent.  When it fails, nothing reaches the caller's
    selector. *)
Theorem intersection_all_in_order (patterns : list (Pattern W))
  (v : Value) (e : env W) :
  (forall es e1,
      passed v patterns e es e1 ->
      let sels := own (store es empty_object) in
      matcher_match (P.intersection patterns) v e
      = (Ok {| matched := VBool true; selections := Some sels |}, e1)
      /\ (forall key x,
            key <> "__proto__" ->
            last_emitted es key = Some x -> obj_get sels key = x)
      /\ (forall key,
            key <> "__proto__" ->
            last_emitted es key = None -> obj_has sels key = false))
  /\ (forall pre p post es_pre e1 r es e2
        (St : Type) (sel : selector St) (o : St),
        patterns = pre ++ p :: post ->
        passed v pre e es_pre e1 ->
        emit p v e1 = (Ok r, (es, e2)) ->
        truthy r = false ->
        matchPattern (P.intersection patterns) v sel (o, e)
        = (Ok (VBool false), (o, e2)))
  /\ (forall res e',
        matcher_match (P.intersection patterns) v e = (Ok res, e') ->
        if truthy (matched res) then exists es, passed v patterns e es e'
        else
          exists pre p post es_pre e1 r es,
            patterns = pre ++ p :: post
            /\ passed v pre e es_pre e1
            /\ emit p v e1 = (Ok r, (es, e'))
            /\ truthy r = false).
Proof.
  split; [|split].
  - intros es e1 Hall sels. split; [|split].
    + simpl. unfold bind, scoped, every.
      rewrite every_passed with (es := es) (e1 := e1); auto.
    + intros key x Hkey Hx. unfold sels.
      rewrite obj_get_store, Hx by exact Hkey. reflexivity.
    + intros key Hkey Hx. unfold sels.
      rewrite obj_has_store, last_emitted_existsb, Hx by exact Hkey.
      reflexivity.
  - intros pre p post es_pre e1 r es e2 St sel o -> Hpre Hp Hr.
    simpl. unfold bind, on_snd, scoped, every. simpl.
    rewrite every_first_failure
      with (e1 := e1) (e2 := e2) (es_pre := es_pre) (es := es) (r := r);
      auto.
  - intros res e' H. simpl in H. unfold bind, scoped, every in H.
    destruct (every_from _ 0 patterns (empty_object, e))
      as [[a|x] [o e1]] eqn:Hs;
      [|discriminate].
    inversion H; subst. simpl. apply every_inv in Hs. exact Hs.
Qed.

(** [optional(p)] against [undefined] matches without running [p], and
    binds exactly the selection keys of [p] other than [__proto__],
    each to [undefined]; against any other value it is [p]: same flag,
    same effects, the captures of [p] assigned to its object, and what
    [p] throws is thrown. *)
Theorem optional_undefined_or_sub (p : Pattern W) (e : env W) :
  let seeded := own (store (seeds (getSelectionKeys p)) empty_object) in
  matcher_match (P.optional p) VUndefined e
  = (Ok {| matched := VBool true; selections := Some seeded |}, e)
  /\ (forall key,
        obj_has seeded key = true
        <-> In key (getSelectionKeys p) /\ key <> "__proto__")
  /\ (forall key, obj_get seeded key = VUndefined)
  /\ (forall v,
        v <> VUndefined ->
        matcher_match (P.optional p) v e
        = match emit p v e with
          | (Ok r, (es, e')) =>
              (Ok {| matched := r;
                     selections := Some (own (store es empty_object)) |},
               e')
          | (Throw x, (_, e')) => (Throw x, e')
          end).
Proof.
  intros seeded.
  assert (Hseeded : seeded
                    = written
                        (seeds (filter (fun k => negb (k =? "__proto__"))
                                  (getSelectionKeys p))) []).
  { unfold seeded. rewrite store_seeds by reflexivity. reflexivity. }
  split; [|split; [|split]].
  - simpl. unfold bind, scoped, on_fst. simpl.
    rewrite forEach_key_assign. reflexivity.
  - intros key. rewrite Hseeded, obj_has_seeds. simpl.
    rewrite existsb_exists. split.
    + intros (k & Hin & Hk). apply String.eqb_eq in Hk. subst k.
      apply filter_In in Hin. destruct Hin as [Hin Hne]. split; [exact Hin|].
      intros ->. discriminate Hne.
    + intros [Hin Hne]. exists key. split; [|apply String.eqb_refl].
      apply filter_In. split; [exact Hin|].
      apply negb_true_iff. apply String.eqb_neq. exact Hne.
  - intros key. rewrite Hseeded. apply obj_get_seeds. reflexivity.
  - intros v Hv. simpl.
    destruct (is_undefined v) eqn:Hu.
    + destruct v; try discriminate. contradiction.
    + unfold bind, scoped. rewrite matchPattern_assign.
      destruct (emit p v e) as [[r|x] [es e']]; reflexivity.
Qed.

(** [not(p)] matches exactly when [p] fails, and its flag is a boolean
    whatever [p] returns; nothing [p] captures reaches the caller's
    selector, whatever the outcome; it declares no selection key; what
    [p] throws is thrown. *)
Theorem not_negates_without_captures (p : Pattern W) (v : Value)
  (St : Type) (sel : selector St) (o : St) (e : env W) :
  matchPattern (P.not p) v sel (o, e)
  = match emit p v e with
    | (Ok r, (_, e')) => (Ok (VBool (negb (truthy r))), (o, e'))
    | (Throw x, (_, e')) => (Throw x, (o, e'))
    end
  /\ getSelectionKeys (P.not p) = [].
Proof.
  split; [|reflexivity].
  simpl. unfold bind, on_snd, scoped. simpl. rewrite matchPattern_ignore.
  destruct (emit p v e) as [[r|x] [es e']]; [|reflexivity].
  simpl. destruct (truthy r); reflexivity.
Qed.

(** The elements before the first that fails match: [every] stops at
    that element. *)
Lemma every_element_fails {St : Type} (sub : Pattern W) (sel : selector St)
  (pre post : list Value) (x : Value) (e e1 e2 : env W)
  (es_pre es : list (string * Value)) (r : Value) :
  all_matched sub pre e es_pre e1 ->
  emit sub x e1 = (Ok r, (es, e2)) ->
  truthy r = false ->
  forall i o o',
    replay sel (es_pre ++ es) o = (Ok tt, o') ->
    every_from (fun v (_ : nat) => matchPattern sub v sel) i
      (pre ++ x :: post) (o, e)
    = (Ok false, (o', e2)).
Proof.
  intros Hpre Hx Hr.
  induction Hpre as [e|q ps e rq esq e1 es' e1' Hq Hrq _ IH];
    intros i o o' Hrep; simpl; unfold bind.
  - simpl in Hrep.
    rewrite (@matchPattern_emit W St sub x sel o o' e e2 (Ok r) es Hx Hrep).
    rewrite Hr. reflexivity.
  - rewrite <- app_assoc in Hrep. apply replay_app_ok in Hrep.
    destruct Hrep as [o1 [H1 H2]].
    rewrite (@matchPattern_emit W St sub q sel o o1 e e1 (Ok rq) esq Hq H1).
    rewrite Hrq. apply (IH Hx). exact H2.
Qed.

(** [array(p)] fails on a value that is not an array without running
    [p], and on an array it stops at the first element that does not
    match: when the captures emitted until then were made under keys
    that name no member of [Object.prototype], the elements after it
    are not tested, and nothing reaches the caller's selector. *)
Theorem array_rejects (p : Pattern W) (St : Type) (sel : selector St)
  (o : St) (e : env W) :
  (forall v,
      (forall elems, v <> VArr elems) ->
      matchPattern (P.array p) v sel (o, e) = (Ok (VBool false), (o, e)))
  /\ (forall pre x post es_pre e1 r es e2,
        all_matched p pre e es_pre e1 ->
        emit p x e1 = (Ok r, (es, e2)) ->
        truthy r = false ->
        no_inherited (map fst (es_pre ++ es)) ->
        matchPattern (P.array p) (VArr (pre ++ x :: post)) sel (o, e)
        = (Ok (VBool false), (o, e2))).
Proof.
  split.
  - intros v Hv. destruct v; try reflexivity.
    exfalso. apply (Hv elems). reflexivity.
  - intros pre x post es_pre e1 r es e2 Hpre Hx Hr Hkeys.
    simpl. unfold bind, on_snd, scoped, every. simpl.
    rewrite every_element_fails
      with (e1 := e1) (e2 := e2) (es_pre := es_pre) (es := es) (r := r)
           (o' := collected (es_pre ++ es) []);
      auto.
    apply replay_array_selector. exact Hkeys.
Qed.

(** The wildcards: [string] matches exactly the strings, [number] the
    numbers, [boolean] the booleans, [nullish] [null] and [undefined],
    and [__] every value; they return a boolean, never throw, capture
    nothing and leave the world as it is. *)
Theorem wildcards_match_their_type (v : Value) (St : Type)
  (sel : selector St) (o : St) (e : env W) :
  let answers (pattern : Pattern W) (b : bool) :=
    exists e',
      matchPattern pattern v sel (o, e) = (Ok (VBool b), (o, e'))
      /\ world e' = world e in
  answers (Wildcard.string W) match v with VStr _ => true | _ => false end
  /\ answers (Wildcard.number W) match v with VNum _ => true | _ => false end
  /\ answers (Wildcard.boolean W) match v with VBool _ => true | _ => false end
  /\ answers (Wildcard.nullish W)
        match v with VNull | VUndefined => true | _ => false end
  /\ answers (Wildcard.__ W) true.
Proof.
  intros answers. unfold answers.
  repeat split; eexists; (split; [destruct v; reflexivity|reflexivity]).
Qed.
End CombinatorOutcomes.



(** ** The further properties on the sample program *)

(** [array(p)] against an array whose elements all match, when the
    keys the elements emit name no member of [Object.prototype],
    reports under each key the values the elements emitted for it, in
    element order. *)
Theorem array_collects_in_element_order (W : Type) (sub : Pattern W)
  (vs : list Value) (e e' : env W) (es : list (string * Value)) :
  all_matched sub vs e es e' ->
  no_inherited (map fst es) ->
  let sels := collected es [] in
  matcher_match (P.array sub) (VArr vs) e
  = (Ok {| matched := VBool true; selections := Some sels |}, e')
  /\ forall key x xs,
      emitted_for es key = x :: xs -> obj_get sels key = VArr (x :: xs).
Proof. apply array_selections. Qed.

(** [array(select(key))] against a non-empty array binds the key to
    the elements of the array, in order and each one whole; when the
    key names a member of [Object.prototype], it throws a type error
    at the first element instead. *)
Theorem array_select_binds_elements (W : Type) (anonymousSelectKey : string)
  (key : option string) (v : Value) (vs : list Value) (e : env W) :
  let k := match key with Some k => k | None => anonymousSelectKey end in
  matcher_match (P.array (P.select anonymousSelectKey key)) (VArr (v :: vs)) e
  = if inherited k then (Throw TypeError, e)
    else (Ok {| matched := VBool true;
                selections := Some [(k, VArr (v :: vs))] |}, e).
Proof.
  intros k. destruct (inherited k) eqn:Hk.
  - apply array_select_inherited. exact Hk.
  - apply array_select_elements. exact Hk.
Qed.

Lemma throwing_test_ends_resolution_witness :
  run stringify show (builder (VNum 7) [no; boom; yes]) s0
  = (Throw (Uncaught (Thrown (VStr "boom"))),
     {| user := {| world := 2; calls := [(2, [VNum 7]); (4, [VNum 7])] |};
        heap := [] |}).
Proof.
  destruct (@throwing_test_ends_resolution nat stringify show
              (builder (VNum 7) [no; boom; yes]) [no] [yes] boom s0
              {| user := {| world := 1; calls := [(2, [VNum 7])] |};
                 heap := [] |}
              {| user := {| world := 2;
                            calls := [(2, [VNum 7]); (4, [VNum 7])] |};
                 heap := [] |}
              (Thrown (VStr "boom"))) as [H _].
  - reflexivity.
  - econstructor; [reflexivity|reflexivity|constructor].
  - reflexivity.
  - exact H.
Defined.

Lemma winning_handler_outcome_witness :
  run stringify show (builder (VNum 7) [yes_throwing]) s0
  = (Throw (Uncaught (Thrown (VStr "boom"))),
     {| user := {| world := 2;
                   calls := [(3, [VNum 7]); (4, [VNum 7; VNum 7])] |};
        heap := [] |})
  /\ run stringify show (builder (VNum 7) [yes_not_callable]) s0
      = (Throw (Uncaught TypeError),
         {| user := {| world := 1; calls := [(3, [VNum 7])] |};
            heap := [] |}).
Proof.
  split.
  - destruct (@winning_handler_outcome nat stringify show
                (builder (VNum 7) [yes_throwing]) [] [] yes_throwing s0 s0
                {| user := {| world := 1; calls := [(3, [VNum 7])] |};
                   heap := [] |}
                {| user := {| world := 1; calls := [(3, [VNum 7])] |};
                   heap := [] |}
                (VBool true) (VNum 7)) as [H _].
    + reflexivity.
    + constructor.
    + reflexivity.
    + reflexivity.
    + reflexivity.
    + exact (H thrower eq_refl).
  - destruct (@winning_handler_outcome nat stringify show
                (builder (VNum 7) [yes_not_callable]) [] []
                yes_not_callable s0 s0
                {| user := {| world := 1; calls := [(3, [VNum 7])] |};
                   heap := [] |}
                {| user := {| world := 1; calls := [(3, [VNum 7])] |};
                   heap := [] |}
                (VBool true) (VNum 7)) as [_ H].
    + reflexivity.
    + constructor.
    + reflexivity.
    + reflexivity.
    + reflexivity.
    + exact (H eq_refl).
Defined.

Lemma when_case_resolution_witness :
  exists b',
    when (builder (VNum 7) [no]) always echo s0 = (Ok b', s0)
    /\ run stringify show b' s0
        = (Ok (VArr [VNum 7; VNum 7]),
           {| user := {| world := 3;
                         calls := [(2, [VNum 7]); (3, [VNum 7]);
                                   (1, [VNum 7; VNum 7])] |};
              heap := [] |}).
Proof.
  destruct (@when_case_resolution nat stringify show
              (builder (VNum 7) [no]) always echo s0
              {| user := {| world := 1; calls := [(2, [VNum 7])] |};
                 heap := [] |}) as (b' & Hwhen & Hrun).
  - econstructor; [reflexivity|reflexivity|constructor].
  - exists b'. split; [apply Hwhen|]. rewrite Hrun. reflexivity.
Defined.

Lemma otherwise_after_rejections_witness :
  otherwise stringify show (builder (VNum 7) [no]) echo s0
  = (Ok (VArr [VNum 7; VNum 7]),
     {| user := {| world := 2;
                   calls := [(2, [VNum 7]); (1, [VNum 7; VNum 7])] |};
        heap := [] |}).
Proof.
  rewrite (@otherwise_after_rejections nat stringify show
             (builder (VNum 7) [no]) echo s0
             {| user := {| world := 1; calls := [(2, [VNum 7])] |};
                heap := [] |}).
  - reflexivity.
  - econstructor; [reflexivity|reflexivity|constructor].
Defined.

Lemma with_without_pattern_never_matches_witness :
  exists c,
    with_ anon (match_ (VNum 7)) [PFun echo] s0
    = (Ok (builder (VNum 7) [c]), {| user := e0; heap := [empty_object] |})
    /\ test c (VNum 7) {| user := e0; heap := [empty_object] |}
        = (Ok (VBool false), {| user := e0; heap := [empty_object] |}).
Proof.
  destruct (@with_without_pattern_never_matches nat anon (match_ (VNum 7))
              [PFun echo] s0) as (c & Hwith & Htest).
  - simpl. lia.
  - exists c. split; [exact Hwith|apply Htest].
Defined.

Lemma with_one_pattern_resolution_witness :
  let v := VObj [("a", VNum 1)] in
  exists b,
    with_ anon (match_ v) [PObj [("a", P.select anon None)]; PFun echo] s0
    = (Ok b, {| user := e0; heap := [empty_object] |})
    /\ run stringify show b {| user := e0; heap := [empty_object] |}
        = (Ok (VArr [VNum 1; v]),
           {| user := {| world := 1; calls := [(1, [VNum 1; v])] |};
              heap := [{| own := [(anon, VNum 1)]; proto := None |}] |}).
Proof.
  intros v.
  destruct (@with_one_pattern_resolution nat anon stringify show v
              (PObj [("a", P.select anon None)]) (PFun echo) s0
              (VBool true) [(anon, VNum 1)] e0 eq_refl)
    as (b & Hwith & _ & Hrun).
  exists b. split; [exact Hwith|].
  destruct (Hrun eq_refl) as (x & Hx & _ & Hkeys).
  destruct Hkeys as (Hanon & _).
  - simpl. intros [H|[]]. discriminate H.
  - unfold s0 in Hx. cbn [user heap app] in Hx.
    rewrite Hx, (Hanon (VNum 1) eq_refl). reflexivity.
Defined.

Lemma intersection_all_in_order_witness :
  matcher_match
    (P.intersection [PObj [("a", P.select anon (Some "x"))];
                     PObj [("b", P.select anon (Some "x"))]])
    subject e0
  = (Ok {| matched := VBool true; selections := Some [("x", VStr "B")] |},
     e0).
Proof.
  destruct (@intersection_all_in_order nat
              [PObj [("a", P.select anon (Some "x"))];
               PObj [("b", P.select anon (Some "x"))]] subject e0)
    as [H _].
  destruct (H [("x", VNum 1); ("x", VStr "B")] e0) as [Hmatch _].
  - apply (@passed_cons nat subject (PObj [("a", P.select anon (Some "x"))])
             [PObj [("b", P.select anon (Some "x"))]] e0 (VBool true)
             [("x", VNum 1)] e0 [("x", VStr "B")] e0);
      [reflexivity|reflexivity|].
    apply (@passed_cons nat subject (PObj [("b", P.select anon (Some "x"))])
             [] e0 (VBool true) [("x", VStr "B")] e0 [] e0);
      [reflexivity|reflexivity|constructor].
  - exact Hmatch.
Defined.

Lemma optional_undefined_or_sub_witness :
  matcher_match (P.optional (PLit (VStr "Hello"))) (VStr "Bye") e0
  = (Ok {| matched := VBool false; selections := Some [] |}, e0).
Proof.
  destruct (@optional_undefined_or_sub nat (PLit (VStr "Hello")) e0)
    as (_ & _ & _ & H).
  rewrite (H (VStr "Bye")); [reflexivity|discriminate].
Defined.

Lemma array_rejects_witness :
  matchPattern (P.array (PLit (VNum 1))) (VNum 1) assign (empty_object, e0)
  = (Ok (VBool false), (empty_object, e0))
  /\ matchPattern (P.array (P.when positive))
        (VArr [VNum 1; VNum 0; VStr "untested"]) assign (empty_object, e0)
      = (Ok (VBool false),
         (empty_object,
          {| world := 2; calls := [(5, [VNum 1]); (5, [VNum 0])] |})).
Proof.
  split.
  - destruct (@array_rejects nat (PLit (VNum 1)) object assign empty_object
                e0) as [H _].
    apply H. discriminate.
  - destruct (@array_rejects nat (P.when positive) object assign
                empty_object e0) as [_ H].
    apply (H [VNum 1] (VNum 0) [VStr "untested"] []
             {| world := 1; calls := [(5, [VNum 1])] |} (VBool false) []
             {| world := 2; calls := [(5, [VNum 1]); (5, [VNum 0])] |}).
    + apply (@all_matched_cons nat (P.when positive) (VNum 1) [] e0
               (VBool true) [] {| world := 1; calls := [(5, [VNum 1])] |}
               [] {| world := 1; calls := [(5, [VNum 1])] |});
        [reflexivity|reflexivity|constructor].
    + reflexivity.
    + reflexivity.
    + intros key [].
Defined.

Lemma array_collects_in_element_order_witness :
  matcher_match (P.array (PObj [("a", P.select anon (Some "x"))]))
    (VArr [VObj [("a", VNum 1)]; VObj [("a", VNum 2)]]) e0
  = (Ok {| matched := VBool true;
           selections := Some [("x", VArr [VNum 1; VNum 2])] |}, e0).
Proof.
  destruct (@array_collects_in_element_order nat
              (PObj [("a", P.select anon (Some "x"))])
              [VObj [("a", VNum 1)]; VObj [("a", VNum 2)]] e0 e0
              [("x", VNum 1); ("x", VNum 2)]) as [H _].
  - apply (@all_matched_cons nat _ (VObj [("a", VNum 1)])
             [VObj [("a", VNum 2)]] e0 (VBool true) [("x", VNum 1)] e0
             [("x", VNum 2)] e0); [reflexivity|reflexivity|].
    apply (@all_matched_cons nat _ (VObj [("a", VNum 2)]) [] e0
             (VBool true) [("x", VNum 2)] e0 [] e0);
      [reflexivity|reflexivity|constructor].
  - intros key [<-|[<-|[]]]; reflexivity.
  - exact H.
Defined.

Lemma union_tests_in_order_witness :
  matcher_match
    (P.union [P.intersection [P.select anon (Some "x"); PLit (VStr "A")];
              PObj [("a", P.select anon (Some "y"))]])
    (VObj [("a", VNum 1)]) e0
  = (Ok {| matched := VBool true;
           selections := Some [("x", VUndefined); ("y", VNum 1)] |}, e0).
Proof.
  destruct (@union_tests_in_order nat
              [P.intersection [P.select anon (Some "x"); PLit (VStr "A")];
               PObj [("a", P.select anon (Some "y"))]]
              (VObj [("a", VNum 1)]) e0) as [H _].
  destruct (H [P.intersection [P.select anon (Some "x"); PLit (VStr "A")]]
              (PObj [("a", P.select anon (Some "y"))]) [] [] e0
              (VBool true) [("y", VNum 1)] e0)
    as [Hmatch _].
  - reflexivity.
  - apply (@tried_cons nat (VObj [("a", VNum 1)])
             (P.intersection [P.select anon (Some "x"); PLit (VStr "A")])
             [] e0 (VBool false) [] e0 [] e0).
    + reflexivity.
    + reflexivity.
    + constructor.
  - reflexivity.
  - reflexivity.
  - exact Hmatch.
Defined.

Lemma captures_are_declared_witness :
  In "x" (getSelectionKeys (P.union [captures_then_fails; only_b])).
Proof.
  apply (@captures_are_declared nat anon
           (P.union [captures_then_fails; only_b]) subject e0 e0
           (Ok (VBool true)) [("x", VNum 1)]).
  - apply comb_union. apply comb_cons.
    + apply comb_obj. apply comb_fields_cons; [apply comb_select|].
      apply comb_fields_cons; [apply comb_lit|apply comb_fields_nil].
    + apply comb_cons; [|apply comb_nil].
      apply comb_obj. apply comb_fields_cons; [apply comb_lit|].
      apply comb_fields_nil.
  - reflexivity.
  - left. reflexivity.
Defined.
